(** * Spatial-vector actions on sets ([src/spatial/act-on-set.hpp])

    A verification development for the colwise action kernels of the
    [se3] namespace: the action of a rigid transform, of its inverse and of
    a spatial motion on 6xN sets of motions and of forces.

    Scalars are kept abstract (the [Scalar] interface below, the role the
    Eigen scalar type plays in the source); the kernels are embedded as
    commands over a store of 6xN matrices so that the aliasing of the input
    and output arguments, which the source allows through its [const_cast]
    of the output, is part of the model. *)

From Stdlib Require Import ZArith Ring PrimFloat.
From stdpp Require Import base option list gmap.

(** ** Scalars *)

(** The operations an Eigen scalar type offers to the kernels.  No law is
    attached to the interface: the structural results hold for every
    instance, the algebraic ones assume [ring_theory] explicitly. *)
Class Scalar (K : Type) := {
  kzero : K;
  kone : K;
  kadd : K → K → K;
  ksub : K → K → K;
  kmul : K → K → K;
  kopp : K → K
}.

Declare Scope scalar_scope.
Delimit Scope scalar_scope with K.
Infix "+" := kadd : scalar_scope.
Infix "-" := ksub : scalar_scope.
Infix "*" := kmul : scalar_scope.
Notation "0" := kzero : scalar_scope.
Notation "1" := kone : scalar_scope.

#[export] Instance Z_Scalar : Scalar Z := {
  kzero := 0%Z; kone := 1%Z;
  kadd := Z.add; ksub := Z.sub; kmul := Z.mul; kopp := Z.opp
}.

(** The scalars of the library: IEEE 754 binary64 ([double]). *)
#[export] Instance binary64_Scalar : Scalar float := {
  kzero := 0%float; kone := 1%float;
  kadd := PrimFloat.add; ksub := PrimFloat.sub; kmul := PrimFloat.mul;
  kopp := PrimFloat.opp
}.

(** The laws of a commutative ring on a scalar type. *)
Definition ScalarRing (K : Type) `{Scalar K} : Prop :=
  ring_theory kzero kone kadd kmul ksub kopp (@eq K).

(** ** Fixed-size vectors and matrices *)

Record Vector3 (K : Type) := V3 { cx : K; cy : K; cz : K }.
Arguments V3 {K} _ _ _.
Arguments cx {K} _.
Arguments cy {K} _.
Arguments cz {K} _.

(** A 3x3 matrix, given by its rows. *)
Record Matrix3 (K : Type) := M3 {
  row0 : Vector3 K; row1 : Vector3 K; row2 : Vector3 K
}.
Arguments M3 {K} _ _ _.
Arguments row0 {K} _.
Arguments row1 {K} _.
Arguments row2 {K} _.

(** A 6D column: [head<3>()] is rows 0-2, [tail<3>()] is rows 3-5. *)
Record Vector6 (K : Type) := V6 { v_head : Vector3 K; v_tail : Vector3 K }.
Arguments V6 {K} _ _.
Arguments v_head {K} _.
Arguments v_tail {K} _.

(** The rigid transform [SE3], as far as the kernels use it. *)
Record SE3 (K : Type) := mkSE3 {
  rotation : Matrix3 K;
  translation : Vector3 K
}.
Arguments mkSE3 {K} _ _.
Arguments rotation {K} _.
Arguments translation {K} _.

(** The interface of [MotionDense] the kernels use. *)
Record Motion (K : Type) := mkMotion {
  linear : Vector3 K;
  angular : Vector3 K
}.
Arguments mkMotion {K} _ _.
Arguments linear {K} _.
Arguments angular {K} _.

Section LinearAlgebra.
Context {K : Type} `{Scalar K}.
Local Open Scope scalar_scope.

Definition vadd (a b : Vector3 K) : Vector3 K :=
  V3 (cx a + cx b) (cy a + cy b) (cz a + cz b).

Definition vsub (a b : Vector3 K) : Vector3 K :=
  V3 (cx a - cx b) (cy a - cy b) (cz a - cz b).

(** [a.cross(b)] *)
Definition cross (a b : Vector3 K) : Vector3 K :=
  V3 (cy a * cz b - cz a * cy b)
     (cz a * cx b - cx a * cz b)
     (cx a * cy b - cy a * cx b).

(** [a.dot(b)] *)
Definition dot (a b : Vector3 K) : K :=
  cx a * cx b + cy a * cy b + cz a * cz b.

(** [M * v], each coefficient the product of a row with [v]. *)
Definition mulMV (M : Matrix3 K) (v : Vector3 K) : Vector3 K :=
  V3 (dot (row0 M) v) (dot (row1 M) v) (dot (row2 M) v).

(** [M.transpose()] *)
Definition transpose (M : Matrix3 K) : Matrix3 K :=
  M3 (V3 (cx (row0 M)) (cx (row1 M)) (cx (row2 M)))
     (V3 (cy (row0 M)) (cy (row1 M)) (cy (row2 M)))
     (V3 (cz (row0 M)) (cz (row1 M)) (cz (row2 M))).

Definition mulMM (A B : Matrix3 K) : Matrix3 K :=
  let Bt := transpose B in
  M3 (V3 (dot (row0 A) (row0 Bt)) (dot (row0 A) (row1 Bt)) (dot (row0 A) (row2 Bt)))
     (V3 (dot (row1 A) (row0 Bt)) (dot (row1 A) (row1 Bt)) (dot (row1 A) (row2 Bt)))
     (V3 (dot (row2 A) (row0 Bt)) (dot (row2 A) (row1 Bt)) (dot (row2 A) (row2 Bt))).

Definition Identity3 : Matrix3 K :=
  M3 (V3 1 0 0) (V3 0 1 0) (V3 0 0 1).

Definition Zero3 : Vector3 K := V3 0 0 0.

Definition Zero6 : Vector6 K := V6 Zero3 Zero3.

(** Coefficient [row] of a 6D column. *)
Definition coeff (x : Vector6 K) (row : nat) : option K :=
  match row with
  | 0 => Some (cx (v_head x))
  | 1 => Some (cy (v_head x))
  | 2 => Some (cz (v_head x))
  | 3 => Some (cx (v_tail x))
  | 4 => Some (cy (v_tail x))
  | 5 => Some (cz (v_tail x))
  | _ => None
  end.

(** The rotation is orthonormal. *)
Definition orthonormal (R : Matrix3 K) : Prop :=
  mulMM (transpose R) R = Identity3.

(** Determinant, adjugate and multiple of a 3x3 matrix; they serve the
    proof that a left inverse of a matrix is a right inverse. *)
Definition det (M : Matrix3 K) : K :=
  let '(M3 (V3 a b c) (V3 d e f) (V3 g h i)) := M in
  a * (e * i - f * h) - b * (d * i - f * g) + c * (d * h - e * g).

Definition adj (M : Matrix3 K) : Matrix3 K :=
  let '(M3 (V3 a b c) (V3 d e f) (V3 g h i)) := M in
  M3 (V3 (e * i - f * h) (c * h - b * i) (b * f - c * e))
     (V3 (f * g - d * i) (a * i - c * g) (c * d - a * f))
     (V3 (d * h - e * g) (b * g - a * h) (a * e - b * d)).

Definition scale (k : K) (M : Matrix3 K) : Matrix3 K :=
  let s := λ r, V3 (k * cx r) (k * cy r) (k * cz r) in
  M3 (s (row0 M)) (s (row1 M)) (s (row2 M)).

(** The pairing of a force with a motion, the power: the linear parts
    together and the angular parts together. *)
Definition pairing (f v : Vector6 K) : K :=
  dot (v_head f) (v_head v) + dot (v_tail f) (v_tail v).

(** The pairing as the spec words it,
    [<f,v> = f_lin . v_ang + f_ang . v_lin]. *)
Definition spec_pairing (f v : Vector6 K) : K :=
  dot (v_head f) (v_tail v) + dot (v_tail f) (v_head v).

(** The 6D column of a motion: linear part on top. *)
Definition toVector (v : Motion K) : Vector6 K := V6 (linear v) (angular v).
End LinearAlgebra.

(** ** The store of matrices *)

(** A buffer holds a 6xN matrix as the list of its columns; [Store K] maps
    buffer identifiers to buffers.  Two arguments of a call alias when they
    name the same buffer. *)
Abbreviation Store K := (gmap nat (list (Vector6 K))).

(** A vector expression (a type whose [ColsAtCompileTime] is 1): column
    [idx] of buffer [buf].  A 6D vector object is column 0 of a buffer with
    a single column; [M.col(c)] is column [c] of the buffer of [M]. *)
Record ColXpr := Col { buf : nat; idx : nat }.

#[export] Instance ColXpr_eq_dec : EqDecision ColXpr.
Proof. solve_decision. Defined.

(** An argument of an entry point: a vector expression, or a matrix whose
    number of columns is not 1 at compile time (fixed to another value, or
    dynamic). *)
Inductive Xpr :=
  | VecXpr (c : ColXpr)
  | MatXpr (b : nat).

(** [VectorBlock<Mat,3>]: a view of one half of a column, not a copy. *)
Inductive VectorBlock :=
  | Head (c : ColXpr)
  | Tail (c : ColXpr).

Section Store.
Context {K : Type}.

Definition get_col (c : ColXpr) (st : Store K) : option (Vector6 K) :=
  M ← st !! buf c; M !! idx c.

Definition set_col (c : ColXpr) (x : Vector6 K) (st : Store K) : Store K :=
  alter (λ M, <[idx c := x]> M) (buf c) st.

(** Commands either fail (an access outside the storage, which Eigen
    asserts against) or end in a new store. *)
Definition Cmd := Store K → option (Store K).

Definition skip : Cmd := λ st, Some st.

Definition seq (c1 c2 : Cmd) : Cmd := λ st, st' ← c1 st; c2 st'.

(** Reading a block. *)
Definition rd (b : VectorBlock) (st : Store K) : option (Vector3 K) :=
  match b with
  | Head c => v_head <$> get_col c st
  | Tail c => v_tail <$> get_col c st
  end.

(** Writing a block leaves the other half of the column as it is. *)
Definition wr (b : VectorBlock) (x : Vector3 K) : Cmd := λ st,
  match b with
  | Head c => old ← get_col c st; Some (set_col c (V6 x (v_tail old)) st)
  | Tail c => old ← get_col c st; Some (set_col c (V6 (v_head old) x) st)
  end.

(** A right-hand side: an expression over blocks, evaluated in the store
    at the time the assignment runs. *)
Definition Expr := Store K → option (Vector3 K).

(** [dst = e;] evaluates [e] and then stores it.  In each assignment of
    the kernels the right-hand side is a matrix product, a sum with a matrix
    product (both evaluated into a temporary by Eigen), or reads no
    coefficient of the block it is assigned to: the statement reads before
    it writes.  Between statements nothing is kept: the blocks [linear] and
    [angular] of the input are read again at each use. *)
Definition assign (dst : VectorBlock) (e : Expr) : Cmd := λ st,
  x ← e st; wr dst x st.

(** [cols()] and [col(c)] of an argument. *)
Definition cols (e : Xpr) (st : Store K) : option nat :=
  match e with
  | VecXpr _ => Some 1
  | MatXpr b => length <$> st !! b
  end.

Definition col (e : Xpr) (c : nat) : option ColXpr :=
  match e with
  | VecXpr r => match c with 0 => Some r | S _ => None end
  | MatXpr b => Some (Col b c)
  end.

(** The columns an argument denotes. *)
Definition xread (e : Xpr) (st : Store K) : option (list (Vector6 K)) :=
  match e with
  | VecXpr r => x ← get_col r st; Some [x]
  | MatXpr b => st !! b
  end.
End Store.
Arguments Cmd K : clear implicits.
Arguments Expr K : clear implicits.

Notation "c1 ;; c2" := (seq c1 c2) (at level 100, c2 at level 200, right associativity).

Section Expressions.
Context {K : Type} `{Scalar K}.

Definition e_rd (b : VectorBlock) : Expr K := rd b.

Definition e_mul (M : Matrix3 K) (e : Expr K) : Expr K := λ st,
  mulMV M <$> e st.

Definition e_cross (p : Vector3 K) (e : Expr K) : Expr K := λ st,
  cross p <$> e st.

Definition e_add (e1 e2 : Expr K) : Expr K := λ st,
  a ← e1 st; b ← e2 st; Some (vadd a b).

Definition e_sub (e1 e2 : Expr K) : Expr K := λ st,
  a ← e1 st; b ← e2 st; Some (vsub a b).
End Expressions.

(** ** The motion-representation helper *)

Section MotionHelper.
Context {K : Type} `{Scalar K}.

(** Modelled from the spec: [MotionDense::motionAction], the bracket of a
    motion with a motion, is called by the kernel but defined in
    [motion-dense.hpp], which is not among the sources.  The spec gives
    [dX_ang = v_ang x X_ang] and [dX_lin = v_ang x X_lin + v_lin x X_ang]. *)
Definition Motion_motionAction (v : Motion K) (X : Vector6 K) : Vector6 K :=
  V6 (vadd (cross (angular v) (v_head X)) (cross (linear v) (v_tail X)))
     (cross (angular v) (v_tail X)).

(** Modelled from the spec: [ForceDense::motionAction], the dual bracket of
    a motion with a force, defined in [force-dense.hpp], which is not among
    the sources.  The spec gives [dX_lin = v_ang x X_lin] and
    [dX_ang = v_ang x X_ang + v_lin x X_lin]. *)
Definition Force_motionAction (v : Motion K) (X : Vector6 K) : Vector6 K :=
  V6 (cross (angular v) (v_head X))
     (vadd (cross (angular v) (v_tail X)) (cross (linear v) (v_head X))).

(** Modelled from the spec: the helper called on references,
    [Ref(self).motionAction(v, out)]: it produces the bracket of the column
    [self] in the column [out].  The spec does not order the reads and
    writes of the helper; here every read precedes the write. *)
Definition Ref_motionAction (bracket : Motion K → Vector6 K → Vector6 K)
    (self : ColXpr) (v : Motion K) (out : ColXpr) : Cmd K := λ st,
  X ← get_col self st;
  _ ← get_col out st;
  Some (set_col out (bracket v X) st).
End MotionHelper.

(** ** The kernels: namespace [internal] *)

Module internal.
Section Kernels.
Context {K : Type} `{Scalar K}.

(** The colwise loop shared by the generic [run] functions:
    [for(int col=0;col<jF.cols();++col) f(iF.col(col), jF.col(col))],
    from column [c] on, with [n] columns left.  The bound [jF.cols()] is
    read once, before the loop: no kernel resizes a matrix
    ([kernel_keeps_cols] below). *)
Fixpoint colwise (f : ColXpr → ColXpr → Cmd K) (iF jF : Xpr) (c n : nat)
    : Cmd K :=
  match n with
  | 0 => skip
  | S n' => λ st,
      jFc ← col jF c;
      iFc ← col iF c;
      st' ← f iFc jFc st;
      colwise f iF jF (S c) n' st'
  end.

(** [ForceSetSe3Action<Mat,MatRet,1>::run] *)
Definition ForceSetSe3Action_1_run (m : SE3 K) (iF jF : ColXpr) : Cmd K :=
  let linear := Head iF in
  let angular := Tail iF in
  assign (Head jF) (e_mul (rotation m) (e_rd linear)) ;;
  assign (Tail jF)
    (e_add (e_cross (translation m) (e_rd (Head jF)))
           (e_mul (rotation m) (e_rd angular))).

(** [ForceSetMotionAction<MotionDerived,Mat,MatRet,1>::run] *)
Definition ForceSetMotionAction_1_run (v : Motion K) (iF jF : ColXpr)
    : Cmd K :=
  let fout := jF in
  Ref_motionAction Force_motionAction iF v fout.

(** [ForceSetSe3Action<Mat,MatRet,NCOLS>::run].  The call
    [forceSet::se3Action(m,iF.col(col),jFc)] in the loop body has column
    expressions for arguments, so it is the specialisation for one
    column that runs. *)
Definition ForceSetSe3Action_run (m : SE3 K) (iF jF : Xpr) : Cmd K := λ st,
  n ← cols jF st;
  colwise (ForceSetSe3Action_1_run m) iF jF 0 n st.

(** [ForceSetMotionAction<MotionDerived,Mat,MatRet,NCOLS>::run] *)
Definition ForceSetMotionAction_run (v : Motion K) (iF jF : Xpr) : Cmd K :=
  λ st,
  n ← cols jF st;
  colwise (ForceSetMotionAction_1_run v) iF jF 0 n st.

(** [ForceSetSe3ActionInverse<Mat,MatRet,1>::run] *)
Definition ForceSetSe3ActionInverse_1_run (m : SE3 K) (iF jF : ColXpr)
    : Cmd K :=
  let linear := Head iF in
  let angular := Tail iF in
  assign (Head jF)
    (e_sub (e_rd angular) (e_cross (translation m) (e_rd linear))) ;;
  assign (Tail jF) (e_mul (transpose (rotation m)) (e_rd (Head jF))) ;;
  assign (Head jF) (e_mul (transpose (rotation m)) (e_rd linear)).

(** [ForceSetSe3ActionInverse<Mat,MatRet,NCOLS>::run] *)
Definition ForceSetSe3ActionInverse_run (m : SE3 K) (iF jF : Xpr) : Cmd K :=
  λ st,
  n ← cols jF st;
  colwise (ForceSetSe3ActionInverse_1_run m) iF jF 0 n st.

(** [MotionSetSe3Action<Mat,MatRet,1>::run] *)
Definition MotionSetSe3Action_1_run (m : SE3 K) (iV jV : ColXpr) : Cmd K :=
  let linear := Head iV in
  let angular := Tail iV in
  assign (Tail jV) (e_mul (rotation m) (e_rd angular)) ;;
  assign (Head jV)
    (e_add (e_cross (translation m) (e_rd (Tail jV)))
           (e_mul (rotation m) (e_rd linear))).

(** [MotionSetMotionAction<MotionDerived,Mat,MatRet,1>::run] *)
Definition MotionSetMotionAction_1_run (v : Motion K) (iV jV : ColXpr)
    : Cmd K :=
  let mout := jV in
  Ref_motionAction Motion_motionAction iV v mout.

(** [MotionSetSe3Action<Mat,MatRet,NCOLS>::run] *)
Definition MotionSetSe3Action_run (m : SE3 K) (iV jV : Xpr) : Cmd K := λ st,
  n ← cols jV st;
  colwise (MotionSetSe3Action_1_run m) iV jV 0 n st.

(** [MotionSetMotionAction<MotionDerived,Mat,MatRet,NCOLS>::run] *)
Definition MotionSetMotionAction_run (v : Motion K) (iV jV : Xpr) : Cmd K :=
  λ st,
  n ← cols jV st;
  colwise (MotionSetMotionAction_1_run v) iV jV 0 n st.

(** [MotionSetSe3ActionInverse<Mat,MatRet,1>::run] *)
Definition MotionSetSe3ActionInverse_1_run (m : SE3 K) (iV jV : ColXpr)
    : Cmd K :=
  let linear := Head iV in
  let angular := Tail iV in
  assign (Tail jV)
    (e_sub (e_rd linear) (e_cross (translation m) (e_rd angular))) ;;
  assign (Head jV) (e_mul (transpose (rotation m)) (e_rd (Tail jV))) ;;
  assign (Tail jV) (e_mul (transpose (rotation m)) (e_rd angular)).

(** [MotionSetSe3ActionInverse<Mat,MatRet,NCOLS>::run] *)
Definition MotionSetSe3ActionInverse_run (m : SE3 K) (iV jV : Xpr) : Cmd K :=
  λ st,
  n ← cols jV st;
  colwise (MotionSetSe3ActionInverse_1_run m) iV jV 0 n st.

(** The choice of the specialisation by [Mat::ColsAtCompileTime].  With a
    vector for input the specialisation for one column is chosen, and its
    [EIGEN_STATIC_ASSERT_VECTOR_ONLY(MatRet)] rejects an output that is not
    a vector: such a call has no run, which the model renders as a
    failure. *)
Definition dispatch {A : Type} (run_1 : A → ColXpr → ColXpr → Cmd K)
    (run : A → Xpr → Xpr → Cmd K) (a : A) (iF jF : Xpr) : Cmd K :=
  match iF with
  | VecXpr i =>
      match jF with
      | VecXpr o => run_1 a i o
      | MatXpr _ => λ _, None
      end
  | MatXpr _ => run a iF jF
  end.
End Kernels.
End internal.

(** ** The entry points: namespaces [forceSet] and [motionSet] *)

Module forceSet.
Section Entry.
Context {K : Type} `{Scalar K}.

Definition se3Action (m : SE3 K) (iF jF : Xpr) : Cmd K :=
  internal.dispatch internal.ForceSetSe3Action_1_run
    internal.ForceSetSe3Action_run m iF jF.

Definition se3ActionInverse (m : SE3 K) (iF jF : Xpr) : Cmd K :=
  internal.dispatch internal.ForceSetSe3ActionInverse_1_run
    internal.ForceSetSe3ActionInverse_run m iF jF.

Definition motionAction (v : Motion K) (iF jF : Xpr) : Cmd K :=
  internal.dispatch internal.ForceSetMotionAction_1_run
    internal.ForceSetMotionAction_run v iF jF.
End Entry.
End forceSet.

Module motionSet.
Section Entry.
Context {K : Type} `{Scalar K}.

Definition se3Action (m : SE3 K) (iV jV : Xpr) : Cmd K :=
  internal.dispatch internal.MotionSetSe3Action_1_run
    internal.MotionSetSe3Action_run m iV jV.

Definition se3ActionInverse (m : SE3 K) (iV jV : Xpr) : Cmd K :=
  internal.dispatch internal.MotionSetSe3ActionInverse_1_run
    internal.MotionSetSe3ActionInverse_run m iV jV.

Definition motionAction (v : Motion K) (iV jV : Xpr) : Cmd K :=
  internal.dispatch internal.MotionSetMotionAction_1_run
    internal.MotionSetMotionAction_run v iV jV.
End Entry.
End motionSet.

(** ** The column functions of the kernels *)

(** What each kernel leaves in the output column, as a function of the input
    column [X]: with output storage distinct from the input, and (suffix
    [_inplace]) with the output column being the input column itself. *)
Section ColumnFunctions.
Context {K : Type} `{Scalar K}.

Definition motion_se3Action (m : SE3 K) (X : Vector6 K) : Vector6 K :=
  let R := rotation m in
  let p := translation m in
  V6 (vadd (cross p (mulMV R (v_tail X))) (mulMV R (v_head X)))
     (mulMV R (v_tail X)).

Definition motion_se3ActionInverse (m : SE3 K) (X : Vector6 K) : Vector6 K :=
  let R := rotation m in
  let p := translation m in
  V6 (mulMV (transpose R) (vsub (v_head X) (cross p (v_tail X))))
     (mulMV (transpose R) (v_tail X)).

Definition motion_se3ActionInverse_inplace (m : SE3 K) (X : Vector6 K)
    : Vector6 K :=
  let R := rotation m in
  let p := translation m in
  let t := vsub (v_head X) (cross p (v_tail X)) in
  V6 (mulMV (transpose R) t) (mulMV (transpose R) t).

Definition force_se3Action (m : SE3 K) (X : Vector6 K) : Vector6 K :=
  let R := rotation m in
  let p := translation m in
  V6 (mulMV R (v_head X))
     (vadd (cross p (mulMV R (v_head X))) (mulMV R (v_tail X))).

Definition force_se3ActionInverse (m : SE3 K) (X : Vector6 K) : Vector6 K :=
  let R := rotation m in
  let p := translation m in
  V6 (mulMV (transpose R) (v_head X))
     (mulMV (transpose R) (vsub (v_tail X) (cross p (v_head X)))).

Definition force_se3ActionInverse_inplace (m : SE3 K) (X : Vector6 K)
    : Vector6 K :=
  let R := rotation m in
  let p := translation m in
  let s := vsub (v_tail X) (cross p (v_head X)) in
  V6 (mulMV (transpose R) s) (mulMV (transpose R) s).

(** The effect of a kernel on the store: the output column [o] becomes [g X]
    (or [g' X] when [o] is the input column [i]), where [X] is the input
    column; nothing else changes, and the kernel fails exactly when one of
    the two columns is outside the storage. *)
Definition column_effect (g g' : Vector6 K → Vector6 K) (i o : ColXpr)
    : Cmd K := λ st,
  X ← get_col i st;
  _ ← get_col o st;
  Some (set_col o (if decide (i = o) then g' X else g X) st).

(** Replacing the columns an argument denotes. *)
Definition xwrite (e : Xpr) (Y : list (Vector6 K)) (st : Store K) : Store K :=
  match e with
  | VecXpr r => match Y with y :: _ => set_col r y st | [] => st end
  | MatXpr b => <[b := Y]> st
  end.
End ColumnFunctions.

(** ** The properties stated of the kernels and of the entry points *)

Section Properties.
Context {K : Type} `{Scalar K}.

(** A kernel is local to its columns: all it does is to replace the output
    column by a function of the input column. *)
Definition column_local (k : ColXpr → ColXpr → Cmd K) : Prop :=
  ∃ g g' : Vector6 K → Vector6 K,
    ∀ i o st, k i o st = column_effect g g' i o st.

(** The column [r] belongs to the storage of the argument [e]. *)
Definition in_xpr (r : ColXpr) (e : Xpr) : Prop :=
  match e with
  | VecXpr o => r = o
  | MatXpr b => buf r = b
  end.

(** Two arguments of the same kind on distinct storage. *)
Definition separate (a b : Xpr) : Prop :=
  match a, b with
  | VecXpr i, VecXpr o => i ≠ o
  | MatXpr bi, MatXpr bo => bi ≠ bo
  | _, _ => False
  end.

(** A call writes in the storage of its output argument only, and resizes
    nothing. *)
Definition writes_output_only (E : Xpr → Xpr → Cmd K) : Prop :=
  ∀ iF jF st st', E iF jF st = Some st' →
    (∀ b, length <$> st' !! b = length <$> st !! b)
    ∧ (∀ r, ¬ in_xpr r jF → get_col r st' = get_col r st).

(** A call whose output storage is distinct from its input storage leaves
    the whole input as it was. *)
Definition keeps_separate_input (E : Xpr → Xpr → Cmd K) : Prop :=
  ∀ iF jF st st', separate iF jF → E iF jF st = Some st' →
    xread iF st' = xread iF st.

(** A call leaves the whole input as it was (whatever the output storage). *)
Definition keeps_input (E : Xpr → Xpr → Cmd K) : Prop :=
  ∀ iF jF st st', E iF jF st = Some st' → xread iF st' = xread iF st.

(** The entry point [E] agrees with the kernel [k]: on vectors it is the
    kernel, and on two matrices with as many columns it succeeds and leaves
    in each output column what the kernel alone, run on that column of the
    input and of the output, leaves there. *)
Definition batch_equivalent (E : Xpr → Xpr → Cmd K)
    (k : ColXpr → ColXpr → Cmd K) : Prop :=
  (∀ i o, E (VecXpr i) (VecXpr o) = k i o)
  ∧ (∀ bi bo st Mi Mo,
       st !! bi = Some Mi → st !! bo = Some Mo → length Mi = length Mo →
       ∃ st', E (MatXpr bi) (MatXpr bo) st = Some st'
         ∧ ∀ c, c < length Mi →
             ∃ st_c, k (Col bi c) (Col bo c) st = Some st_c
               ∧ get_col (Col bo c) st' = get_col (Col bo c) st_c).

(** [E2] undoes [E1]: from the columns [X] in [a], through the storage [b],
    the columns [X] are found in [c]. *)
Definition round_trip (E1 E2 : Xpr → Xpr → Cmd K) : Prop :=
  ∀ a b c st X Y Z,
    separate a b → separate b c →
    xread a st = Some X → xread b st = Some Y → xread c st = Some Z →
    length Y = length X → length Z = length X →
    ∃ st', (E1 a b ;; E2 b c) st = Some st' ∧ xread c st' = Some X.

(** The pairing [P] of a force with a motion is kept when the force goes
    through [EF] and the motion through [EV]. *)
Definition invariant_pairing (P : Vector6 K → Vector6 K → K)
    (EF EV : Xpr → Xpr → Cmd K) : Prop :=
  ∀ st fi fo vi vo f v,
    fi ≠ fo → vi ≠ vo →
    get_col fi st = Some f → get_col vi st = Some v →
    is_Some (get_col fo st) → is_Some (get_col vo st) →
    ∃ st1 st2 f' v',
      EF (VecXpr fi) (VecXpr fo) st = Some st1
      ∧ EV (VecXpr vi) (VecXpr vo) st = Some st2
      ∧ get_col fo st1 = Some f' ∧ get_col vo st2 = Some v'
      ∧ P f' v' = P f v.

(** [E] is an entry point that chooses between the kernel [run_1], whose
    column functions are [g] and [g'], and the colwise loop over it. *)
Definition colwise_entry {A : Type} (E : A → Xpr → Xpr → Cmd K)
    (run_1 : A → ColXpr → ColXpr → Cmd K)
    (g g' : A → Vector6 K → Vector6 K) : Prop :=
  (∀ a i o st, run_1 a i o st = column_effect (g a) (g' a) i o st)
  ∧ ∃ run : A → Xpr → Xpr → Cmd K,
      (∀ a iF jF st,
         run a iF jF st
         = (n ← cols jF st; internal.colwise (run_1 a) iF jF 0 n st))
      ∧ (∀ a iF jF, E a iF jF = internal.dispatch run_1 run a iF jF).

(** A call on separate storage with as many columns in the output as in
    the input succeeds. *)
Definition succeeds_on_separate (E : Xpr → Xpr → Cmd K) : Prop :=
  ∀ iF jF st X Y,
    separate iF jF → xread iF st = Some X → xread jF st = Some Y →
    length Y = length X → is_Some (E iF jF st).

(** What is stated of the memory effects of an entry point [E] over the
    kernel [k]. *)
Definition respects_frame (E : Xpr → Xpr → Cmd K)
    (k : ColXpr → ColXpr → Cmd K) : Prop :=
  column_local k
  ∧ writes_output_only E
  ∧ keeps_separate_input E
  ∧ succeeds_on_separate E.
End Properties.

(** ** Concrete data over the integers *)

Definition zv (a b c : Z) : Vector3 Z := V3 a b c.

(** The identity rotation with the translation [(1,0,0)]. *)
Definition m_x : SE3 Z := mkSE3 Identity3 (zv 1 0 0).

(** A store of four single columns: buffer 0 holds the unit angular
    velocity about z, buffer 1 a unit force along y, buffer 2 is scratch and
    buffer 3 holds the unit angular velocity about y. *)
Definition st_x : Store Z :=
  {[ 0 := [V6 (zv 0 0 0) (zv 0 0 1)];
     1 := [V6 (zv 0 1 0) (zv 0 0 0)];
     2 := [V6 (zv 7 7 7) (zv 7 7 7)];
     3 := [V6 (zv 0 0 0) (zv 0 1 0)] ]}.

(** A store of two 6x2 matrices: buffer 0 holds two columns, buffer 1 is
    scratch. *)
Definition M_in : list (Vector6 Z) :=
  [V6 (zv 1 2 3) (zv 4 5 6); V6 (zv 0 1 0) (zv 0 0 1)].

Definition M_out : list (Vector6 Z) :=
  [V6 (zv 7 7 7) (zv 7 7 7); V6 (zv 7 7 7) (zv 7 7 7)].

Definition st_2 : Store Z := {[ 0 := M_in; 1 := M_out; 2 := M_out ]}.

(** A rotation of a quarter turn about z, with a translation. *)
Definition m_z : SE3 Z :=
  mkSE3 (M3 (zv 0 (-1) 0) (zv 1 0 0) (zv 0 0 1)) (zv 1 2 3).

(** The same unit angular velocity about z in binary64, with a scratch
    column. *)
Definition st_b64 : Store float :=
  {[ 0 := [V6 (V3 0 0 0) (V3 0 0 1)]%float;
     1 := [V6 (V3 7 7 7) (V3 7 7 7)]%float ]}.

(** ** Further properties of the entry points *)

Section FurtherProperties.
Context {K : Type} `{Scalar K}.

Definition vopp (a : Vector3 K) : Vector3 K :=
  V3 (kopp (cx a)) (kopp (cy a)) (kopp (cz a)).

(** Called with the input itself for output, on a vector or on a matrix,
    [E] leaves [g X] in the place of every column [X]. *)
Definition maps_in_place (E : Xpr → Xpr → Cmd K)
    (g : Vector6 K → Vector6 K) : Prop :=
  (∀ c st X, get_col c st = Some X →
     E (VecXpr c) (VecXpr c) st = Some (set_col c (g X) st))
  ∧ (∀ b st (M : list (Vector6 K)), st !! b = Some M →
       E (MatXpr b) (MatXpr b) st = Some (<[b := g <$> M]> st)).

(** Called on distinct storage with as many columns in the output as in
    the input, [E] succeeds and leaves in the output the image by [g] of
    every column of the input, whatever the output held. *)
Definition maps_columns (E : Xpr → Xpr → Cmd K)
    (g : Vector6 K → Vector6 K) : Prop :=
  ∀ iF jF st X Y,
    separate iF jF → xread iF st = Some X → xread jF st = Some Y →
    length Y = length X →
    E iF jF st = Some (xwrite jF (g <$> X) st).

(** The loop runs over the columns of the output: with an output of fewer
    columns than the input, on distinct storage, the call succeeds, the
    output holds the images of the first columns of the input, and the other
    columns of the input play no part; with an output without columns the
    store is left as it is. *)
Definition follows_output_columns (E : Xpr → Xpr → Cmd K)
    (g : Vector6 K → Vector6 K) : Prop :=
  ∀ bi bo st (Mi Mo : list (Vector6 K)),
    bi ≠ bo → st !! bi = Some Mi → st !! bo = Some Mo →
    length Mo ≤ length Mi →
    E (MatXpr bi) (MatXpr bo) st
    = Some (<[bo := g <$> take (length Mo) Mi]> st)
    ∧ (Mo = [] → E (MatXpr bi) (MatXpr bo) st = Some st).

(** With an input matrix of fewer columns than the output the call has no
    result: the column [iF.col(col)] it comes to is outside the input. *)
Definition fails_on_short_input (E : Xpr → Xpr → Cmd K) : Prop :=
  ∀ bi jF st (Mi : list (Vector6 K)) n,
    st !! bi = Some Mi → cols jF st = Some n → length Mi < n →
    E (MatXpr bi) jF st = None.

(** On distinct storage the output becomes a copy of the input. *)
Definition copies (E : Xpr → Xpr → Cmd K) : Prop :=
  ∀ iF jF st X Y,
    separate iF jF → xread iF st = Some X → xread jF st = Some Y →
    length Y = length X →
    E iF jF st = Some (xwrite jF X st).

(** On distinct storage the two calls succeed and end in the same store. *)
Definition same_call (E1 E2 : Xpr → Xpr → Cmd K) : Prop :=
  ∀ iF jF st X Y,
    separate iF jF → xread iF st = Some X → xread jF st = Some Y →
    length Y = length X →
    ∃ st', E1 iF jF st = Some st' ∧ E2 iF jF st = Some st'.

(** [E2] from [a] to [b] and then [E1] from [b] to [c] leave in [c] what
    [E12] from [a] to [c] leaves there. *)
Definition composes (E1 E2 E12 : Xpr → Xpr → Cmd K) : Prop :=
  ∀ a b c st X Y Z,
    separate a b → separate b c → separate a c →
    xread a st = Some X → xread b st = Some Y → xread c st = Some Z →
    length Y = length X → length Z = length X →
    ∃ st1 st2,
      (E2 a b ;; E1 b c) st = Some st1
      ∧ E12 a c st = Some st2
      ∧ xread c st1 = xread c st2.

(** The pairing [P] of the force after [EF] with the motion as it was is
    the pairing of the force as it was with the motion after [EV]. *)
Definition adjoint_pairing (P : Vector6 K → Vector6 K → K)
    (EF EV : Xpr → Xpr → Cmd K) : Prop :=
  ∀ st fi fo vi vo f v,
    fi ≠ fo → vi ≠ vo →
    get_col fi st = Some f → get_col vi st = Some v →
    is_Some (get_col fo st) → is_Some (get_col vo st) →
    ∃ st1 st2 f' v',
      EF (VecXpr fi) (VecXpr fo) st = Some st1
      ∧ EV (VecXpr vi) (VecXpr vo) st = Some st2
      ∧ get_col fo st1 = Some f' ∧ get_col vo st2 = Some v'
      ∧ P f' v = P f v'.

(** On distinct storage a second call with the same arguments changes
    nothing: the call reads nothing of what the output held and leaves the
    input as it was. *)
Definition idempotent_on_separate (E : Xpr → Xpr → Cmd K) : Prop :=
  ∀ iF jF st X Y,
    separate iF jF → xread iF st = Some X → xread jF st = Some Y →
    length Y = length X →
    ∃ st', E iF jF st = Some st' ∧ (E iF jF ;; E iF jF) st = Some st'.
End FurtherProperties.

(** A store whose buffer 1 has one column less than its buffer 0. *)
Definition st_short : Store Z :=
  {[ 0 := M_in; 1 := [V6 (zv 7 7 7) (zv 7 7 7)] ]}.

(** The identity transform. *)
Definition m_id : SE3 Z := mkSE3 Identity3 Zero3.

(** ** Arguments by const reference *)

Section ByReference.
Context {K : Type} `{Scalar K}.

(** The transform is passed as [const SE3 &]: a reference [r] to an object
    of its own, kept apart from the matrices.  The call reads the object and
    runs on the matrices. *)
Definition with_SE3 (E : SE3 K → Xpr → Xpr → Cmd K) (r : nat)
    (iF jF : Xpr) (mem : gmap nat (SE3 K) * Store K)
    : option (gmap nat (SE3 K) * Store K) :=
  m ← mem.1 !! r;
  st' ← E m iF jF mem.2;
  Some (mem.1, st').

(** The motion is passed as [const MotionDense<MotionDerived> &]: its six
    coefficients are a 6D vector [cv] of the store, a vector of its own for
    a motion object, or a column of a matrix for a [MotionRef] on it; the
    linear part is its head, the angular part its tail. *)
Definition motion_at (cv : ColXpr) (st : Store K) : option (Motion K) :=
  X ← get_col cv st; Some (mkMotion (v_head X) (v_tail X)).

(** A kernel whose motion is read through the reference when it runs. *)
Definition by_reference (k : Motion K → ColXpr → ColXpr → Cmd K)
    (cv i o : ColXpr) : Cmd K := λ st,
  v ← motion_at cv st; k v i o st.

(** The colwise loop over such a kernel: the reference is passed on to each
    call of the loop body. *)
Definition run_by_reference (k : Motion K → ColXpr → ColXpr → Cmd K)
    (cv : ColXpr) (iF jF : Xpr) : Cmd K := λ st,
  n ← cols jF st;
  internal.colwise (by_reference k cv) iF jF 0 n st.

(** [motionSet::motionAction] with the motion given by reference. *)
Definition motionSet_motionAction_on (cv : ColXpr) (iV jV : Xpr) : Cmd K :=
  internal.dispatch (by_reference internal.MotionSetMotionAction_1_run)
    (run_by_reference internal.MotionSetMotionAction_1_run) cv iV jV.

(** [forceSet::motionAction] with the motion given by reference. *)
Definition forceSet_motionAction_on (cv : ColXpr) (iF jF : Xpr) : Cmd K :=
  internal.dispatch (by_reference internal.ForceSetMotionAction_1_run)
    (run_by_reference internal.ForceSetMotionAction_1_run) cv iF jF.

(** A call leaves every transform as it was, and is the call on the
    transform that the reference names. *)
Definition keeps_transform (E : SE3 K → Xpr → Xpr → Cmd K) : Prop :=
  ∀ r iF jF T st T' st',
    with_SE3 E r iF jF (T, st) = Some (T', st') →
    T' = T ∧ ∃ m, T !! r = Some m ∧ E m iF jF st = Some st'.

(** When the motion is no part of the output storage, the call by
    reference is the call on the motion that the reference names, and after
    it the reference names the same motion. *)
Definition keeps_motion (E : Motion K → Xpr → Xpr → Cmd K)
    (E_on : ColXpr → Xpr → Xpr → Cmd K) : Prop :=
  ∀ cv iF jF st v,
    motion_at cv st = Some v → ¬ in_xpr cv jF →
    E_on cv iF jF st = E v iF jF st
    ∧ ∀ st', E_on cv iF jF st = Some st' → motion_at cv st' = Some v.

(** The entry point [E] works column by column with the kernel [k]: on
    vectors it is [k]; on two matrices with as many columns, the same or
    not, column [c] of the output becomes the image of column [c] of the
    input, by [g], or by [g'] when the output is the input; [k] itself
    replaces its output column by that image of its input column; and on a
    matrix for input, whatever the output, [E] is the loop that runs [k] on
    column [c] of the input and column [c] of the output, for each [c]
    below the number of columns of the output. *)
Definition columnwise (E : Xpr → Xpr → Cmd K)
    (k : ColXpr → ColXpr → Cmd K) (g g' : Vector6 K → Vector6 K) : Prop :=
  (∀ i o st, k i o st = column_effect g g' i o st)
  ∧ (∀ i o, E (VecXpr i) (VecXpr o) = k i o)
  ∧ (∀ bi bo st (Mi Mo : list (Vector6 K)),
       st !! bi = Some Mi → st !! bo = Some Mo → length Mi = length Mo →
       E (MatXpr bi) (MatXpr bo) st
       = Some (<[bo := (if decide (bi = bo) then g' else g) <$> Mi]> st))
  ∧ (∀ bi jF st,
       E (MatXpr bi) jF st
       = (n ← cols jF st; internal.colwise k (MatXpr bi) jF 0 n st)).
End ByReference.

(** ** Concrete data in binary64 *)

(** The identity rotation with the translation [(1,0,0)], in binary64. *)
Definition m_b64 : SE3 float := mkSE3 Identity3 (V3 1 0 0)%float.

(** A store of single columns in binary64: buffer 0 holds a motion whose
    linear part [2^-54] is small before its angular part, buffer 1 the unit
    force along y, buffers 2 and 3 are scratch, and buffer 4 holds a motion
    whose angular part is large. *)
Definition st_b64_round : Store float :=
  {[ 0 := [V6 (V3 0 0x1p-54 0) (V3 0 0 1)]%float;
     1 := [V6 (V3 0 1 0) (V3 0 0 0)]%float;
     2 := [V6 (V3 7 7 7) (V3 7 7 7)]%float;
     3 := [V6 (V3 7 7 7) (V3 7 7 7)]%float;
     4 := [V6 (V3 0 0 0) (V3 0x1p600 0x1p600 0)]%float ]}.

(** The motion of buffer 4. *)
Definition v_b64 : Motion float :=
  mkMotion (V3 0 0 0)%float (V3 0x1p600 0x1p600 0)%float.

(** A motion over the integers whose two parts are not parallel. *)
Definition v_z : Motion Z := mkMotion (zv 1 2 3) (zv 4 5 6).

(** ** Facts about the store *)

Lemma Z_ScalarRing : ScalarRing Z.
Proof.
  constructor; intros; cbn; try lia.
Defined.

Section StoreFacts.
Context {K : Type}.
Implicit Types (st : Store K) (c : ColXpr) (x y : Vector6 K).

Lemma get_col_set_col_eq c x st :
  get_col c (set_col c x st) = (λ _, x) <$> get_col c st.
Proof.
  unfold get_col, set_col. rewrite lookup_alter_eq.
  destruct (st !! buf c) as [M|]; simpl; [|done].
  destruct (M !! idx c) as [y|] eqn:E; simpl.
  - apply list_lookup_insert_eq. by eapply lookup_lt_Some.
  - rewrite list_insert_ge; [done|]. by apply lookup_ge_None.
Qed.

Lemma get_col_set_col_ne c c' x st :
  c ≠ c' → get_col c' (set_col c x st) = get_col c' st.
Proof.
  intros Hne. unfold get_col, set_col.
  destruct (decide (buf c = buf c')) as [Hb|Hb].
  - rewrite <- Hb, lookup_alter_eq.
    destruct (st !! buf c) as [M|]; simpl; [|done].
    apply list_lookup_insert_ne. intros Hi.
    destruct c, c'; simpl in *; congruence.
  - by rewrite lookup_alter_ne.
Qed.

Lemma set_col_set_col c x y st :
  set_col c x (set_col c y st) = set_col c x st.
Proof.
  unfold set_col. apply map_eq; intros b.
  destruct (decide (buf c = b)) as [<-|Hb].
  - rewrite !lookup_alter_eq. destruct (st !! buf c) as [M|]; simpl; [|done].
    by rewrite list_insert_insert_eq.
  - by rewrite !lookup_alter_ne.
Qed.

Lemma set_col_insert b j x (M : list (Vector6 K)) st :
  st !! b = Some M → set_col (Col b j) x st = <[b := <[j := x]> M]> st.
Proof.
  intros HM. unfold set_col; simpl. apply map_eq; intros b'.
  destruct (decide (b = b')) as [<-|Hb].
  - by rewrite lookup_alter_eq, lookup_insert_eq, HM.
  - by rewrite lookup_alter_ne, lookup_insert_ne.
Qed.

Lemma lookup_set_col_length c x st b :
  length <$> set_col c x st !! b = length <$> st !! b.
Proof.
  unfold set_col. destruct (decide (buf c = b)) as [<-|Hb].
  - rewrite lookup_alter_eq. destruct (st !! buf c); simpl; [|done].
    by rewrite length_insert.
  - by rewrite lookup_alter_ne.
Qed.

Lemma cols_set_col e c x st : cols e (set_col c x st) = cols e st.
Proof. destruct e; simpl; [done|]. apply lookup_set_col_length. Qed.

Lemma get_col_Col b j st (M : list (Vector6 K)) :
  st !! b = Some M → get_col (Col b j) st = M !! j.
Proof. intros HM. unfold get_col; simpl. by rewrite HM. Qed.
End StoreFacts.

(** ** The kernels for one column *)

Section KernelEffects.
Context {K : Type} `{Scalar K}.
Implicit Types (m : SE3 K) (v : Motion K) (st : Store K) (i o : ColXpr).

(** Symbolic execution of a straight-line kernel: the reads of the columns
    are resolved by the hypotheses and by the store facts. *)
Ltac run_kernel :=
  repeat first
    [ rewrite get_col_set_col_eq
    | rewrite get_col_set_col_ne by congruence
    | rewrite set_col_set_col
    | match goal with
      | E : get_col ?c ?st = _ |- context [get_col ?c ?st] => rewrite E
      end
    | progress simpl ].

Ltac kernel_cases i o st :=
  unfold column_effect, seq, assign, e_add, e_sub, e_mul, e_cross, e_rd, rd, wr;
  destruct (decide (i = o)) as [->|Hio];
  [ destruct (get_col o st) as [X|] eqn:Ho
  | destruct (get_col i st) as [X|] eqn:Hi;
    destruct (get_col o st) as [Y|] eqn:Ho ];
  run_kernel; try done.

Lemma ForceSetSe3Action_1_run_effect m i o st :
  internal.ForceSetSe3Action_1_run m i o st
  = column_effect (force_se3Action m) (force_se3Action m) i o st.
Proof. unfold internal.ForceSetSe3Action_1_run. kernel_cases i o st. Qed.

Lemma ForceSetSe3ActionInverse_1_run_effect m i o st :
  internal.ForceSetSe3ActionInverse_1_run m i o st
  = column_effect (force_se3ActionInverse m)
      (force_se3ActionInverse_inplace m) i o st.
Proof. unfold internal.ForceSetSe3ActionInverse_1_run. kernel_cases i o st. Qed.

Lemma MotionSetSe3Action_1_run_effect m i o st :
  internal.MotionSetSe3Action_1_run m i o st
  = column_effect (motion_se3Action m) (motion_se3Action m) i o st.
Proof. unfold internal.MotionSetSe3Action_1_run. kernel_cases i o st. Qed.

Lemma MotionSetSe3ActionInverse_1_run_effect m i o st :
  internal.MotionSetSe3ActionInverse_1_run m i o st
  = column_effect (motion_se3ActionInverse m)
      (motion_se3ActionInverse_inplace m) i o st.
Proof. unfold internal.MotionSetSe3ActionInverse_1_run. kernel_cases i o st. Qed.

Lemma ForceSetMotionAction_1_run_effect v i o st :
  internal.ForceSetMotionAction_1_run v i o st
  = column_effect (Force_motionAction v) (Force_motionAction v) i o st.
Proof.
  unfold internal.ForceSetMotionAction_1_run, Ref_motionAction, column_effect.
  by destruct (decide (i = o)).
Qed.

Lemma MotionSetMotionAction_1_run_effect v i o st :
  internal.MotionSetMotionAction_1_run v i o st
  = column_effect (Motion_motionAction v) (Motion_motionAction v) i o st.
Proof.
  unfold internal.MotionSetMotionAction_1_run, Ref_motionAction, column_effect.
  by destruct (decide (i = o)).
Qed.
End KernelEffects.

(** ** The colwise loop *)

Section Colwise.
Context {K : Type} `{Scalar K}.
Variable f : ColXpr → ColXpr → Cmd K.
Variables g g' : Vector6 K → Vector6 K.
Hypothesis f_effect : ∀ i o st, f i o st = column_effect g g' i o st.

(** One iteration on the columns [c] of two matrices. *)
Lemma f_on_columns bi bo c st Mi Mo X :
  st !! bi = Some Mi → st !! bo = Some Mo →
  Mi !! c = Some X → c < length Mo →
  f (Col bi c) (Col bo c) st
  = Some (<[bo := <[c := (if decide (bi = bo) then g' else g) X]> Mo]> st).
Proof.
  intros HMi HMo HX Hc. rewrite f_effect. unfold column_effect.
  rewrite (get_col_Col _ _ _ _ HMi), HX, (get_col_Col _ _ _ _ HMo). simpl.
  destruct (lookup_lt_is_Some_2 Mo c Hc) as [Y ->]. simpl.
  rewrite (set_col_insert _ _ _ _ _ HMo). do 3 f_equal.
  destruct (decide (bi = bo)) as [->|Hb].
  - by rewrite decide_True.
  - rewrite decide_False; [done|]. congruence.
Qed.

(** The loop from column [c] on: the columns below [c] of the output are
    kept, the others are computed from the input columns. *)
Lemma colwise_MatXpr bi bo n : ∀ c st Mi Mo,
  st !! bi = Some Mi → st !! bo = Some Mo →
  length Mi = length Mo → c + n = length Mo →
  internal.colwise f (MatXpr bi) (MatXpr bo) c n st
  = Some (<[bo := take c Mo
                  ++ ((if decide (bi = bo) then g' else g) <$> drop c Mi)]> st).
Proof.
  induction n as [|n IH]; intros c st Mi Mo HMi HMo Hlen Hc; simpl.
  - unfold skip. f_equal. symmetry. apply insert_id.
    rewrite HMo. f_equal.
    rewrite take_ge by lia. rewrite drop_ge by lia. simpl.
    by rewrite app_nil_r.
  - destruct (lookup_lt_is_Some_2 Mi c) as [X HX]; [lia|].
    rewrite (f_on_columns bi bo c st Mi Mo X) by (done || lia). simpl.
    set (y := (if decide (bi = bo) then g' else g) X).
    set (st1 := <[bo := <[c := y]> Mo]> st).
    assert (HMo1 : st1 !! bo = Some (<[c := y]> Mo))
      by apply lookup_insert_eq.
    assert (∃ Mi1, st1 !! bi = Some Mi1 ∧ length Mi1 = length Mi
                   ∧ drop (S c) Mi1 = drop (S c) Mi) as (Mi1 & HMi1 & Hl1 & Hd1).
    { destruct (decide (bi = bo)) as [->|Hb].
      - exists (<[c := y]> Mo). split; [done|].
        assert (Mi = Mo) by congruence. subst Mi.
        split; [apply length_insert|]. apply drop_insert_lt. lia.
      - exists Mi. split; [|done]. unfold st1. by rewrite lookup_insert_ne. }
    rewrite (IH (S c) st1 Mi1 (<[c := y]> Mo) HMi1 HMo1)
      by (rewrite ?length_insert; lia).
    f_equal. unfold st1. rewrite insert_insert_eq. f_equal.
    rewrite Hd1, (drop_S Mi X c HX). simpl.
    rewrite (take_S_r (<[c := y]> Mo) c y)
      by (apply list_lookup_insert_eq; lia).
    rewrite take_insert_ge by lia. by rewrite <- app_assoc.
Qed.

(** The whole loop on two matrices with as many columns. *)
Lemma colwise_all bi bo st Mi Mo :
  st !! bi = Some Mi → st !! bo = Some Mo → length Mi = length Mo →
  internal.colwise f (MatXpr bi) (MatXpr bo) 0 (length Mo) st
  = Some (<[bo := (if decide (bi = bo) then g' else g) <$> Mi]> st).
Proof.
  intros HMi HMo Hlen.
  by rewrite (colwise_MatXpr bi bo (length Mo) 0 st Mi Mo).
Qed.

Lemma column_effect_Some i o st st' :
  column_effect g g' i o st = Some st' → ∃ y, st' = set_col o y st.
Proof.
  unfold column_effect. intros Hrun.
  destruct (get_col i st) as [X|]; simpl in Hrun; [|done].
  destruct (get_col o st) as [Y|]; simpl in Hrun; [|done].
  eexists. by injection Hrun as <-.
Qed.

(** No kernel changes the number of columns of an argument. *)
Lemma kernel_keeps_cols i o st st' (e : Xpr) :
  f i o st = Some st' → cols e st' = cols e st.
Proof.
  rewrite f_effect. intros [y ->]%column_effect_Some. apply cols_set_col.
Qed.

Lemma col_in_xpr (e : Xpr) c r : col e c = Some r → in_xpr r e.
Proof.
  destruct e as [o|b]; simpl.
  - destruct c; [|done]. by intros [= ->].
  - by intros [= <-].
Qed.

(** The loop writes in the storage of the output only, whatever the two
    arguments are. *)
Lemma colwise_frame iF jF n : ∀ c st st',
  internal.colwise f iF jF c n st = Some st' →
  (∀ b, length <$> st' !! b = length <$> st !! b)
  ∧ (∀ r, ¬ in_xpr r jF → get_col r st' = get_col r st).
Proof.
  induction n as [|n IH]; intros c st st'; simpl.
  - unfold skip. by intros [= <-].
  - destruct (col jF c) as [o|] eqn:Ho; simpl; [|done].
    destruct (col iF c) as [i|] eqn:Hi; simpl; [|done].
    destruct (f i o st) as [st1|] eqn:Hf; simpl; [|done].
    rewrite f_effect in Hf. apply column_effect_Some in Hf as [y ->].
    intros [Hlen Hget]%IH. split.
    + intros b. by rewrite Hlen, lookup_set_col_length.
    + intros r Hr. rewrite (Hget r Hr). apply get_col_set_col_ne.
      intros <-. apply Hr. by eapply col_in_xpr.
Qed.
End Colwise.

(** ** Algebra over a commutative ring of scalars *)

Section Algebra.
Context {K : Type} `{Scalar K}.
Context (Kring : ScalarRing K).
Local Open Scope scalar_scope.

Add Ring Kr : (Kring : ring_theory 0 1 kadd kmul ksub kopp eq).

Lemma V3_eq (a b c a' b' c' : K) :
  a = a' → b = b' → c = c' → V3 a b c = V3 a' b' c'.
Proof. congruence. Qed.

Lemma M3_eq (a b c a' b' c' : Vector3 K) :
  a = a' → b = b' → c = c' → M3 a b c = M3 a' b' c'.
Proof. congruence. Qed.

(** Equations between vectors and matrices, by coefficients. *)
Ltac by_ring :=
  repeat match goal with
    | x : Vector3 _ |- _ => destruct x
    | M : Matrix3 _ |- _ => destruct M
    | X : Vector6 _ |- _ => destruct X
    end;
  unfold mulMM, mulMV, transpose, scale, det, adj, Identity3, Zero3,
    vadd, vsub, cross, dot; simpl;
  repeat first [apply M3_eq | apply V3_eq]; ring.

Lemma mulMV_mulMM (A B : Matrix3 K) x :
  mulMV A (mulMV B x) = mulMV (mulMM A B) x.
Proof. by_ring. Qed.

Lemma mulMV_Identity3 (x : Vector3 K) : mulMV Identity3 x = x.
Proof. by_ring. Qed.

Lemma mulMM_assoc (A B C : Matrix3 K) :
  mulMM (mulMM A B) C = mulMM A (mulMM B C).
Proof. by_ring. Qed.

Lemma mulMM_Identity3_l (A : Matrix3 K) : mulMM Identity3 A = A.
Proof. by_ring. Qed.

Lemma mulMM_Identity3_r (A : Matrix3 K) : mulMM A Identity3 = A.
Proof. by_ring. Qed.

Lemma det_mulMM (A B : Matrix3 K) : det (mulMM A B) = det A * det B.
Proof. by_ring. Qed.

Lemma det_Identity3 : det (Identity3 : Matrix3 K) = 1.
Proof. by_ring. Qed.

Lemma adj_mulMM (A : Matrix3 K) : mulMM (adj A) A = scale (det A) Identity3.
Proof. by_ring. Qed.

Lemma scale_mulMM (k : K) (A B : Matrix3 K) :
  mulMM (scale k A) B = scale k (mulMM A B).
Proof. by_ring. Qed.

Lemma scale_scale (k l : K) (A : Matrix3 K) :
  scale k (scale l A) = scale (k * l) A.
Proof. by_ring. Qed.

Lemma scale_1 (A : Matrix3 K) : scale 1 A = A.
Proof. by_ring. Qed.

(** Over a commutative ring a left inverse of a square matrix is a right
    inverse: with the adjugate, [adj A = det A . B] whenever [A B = I]. *)
Lemma left_inverse_right (A B : Matrix3 K) :
  mulMM A B = Identity3 → mulMM B A = Identity3.
Proof.
  intros HAB.
  assert (Hdet : det B * det A = 1).
  { rewrite <- det_Identity3, <- HAB, det_mulMM. ring. }
  assert (Hadj : adj A = scale (det A) B).
  { rewrite <- (mulMM_Identity3_r (adj A)), <- HAB, <- mulMM_assoc.
    by rewrite adj_mulMM, scale_mulMM, mulMM_Identity3_l. }
  rewrite <- (scale_1 (mulMM B A)), <- Hdet, <- scale_scale, <- scale_mulMM.
  by rewrite <- Hadj, adj_mulMM, scale_scale, Hdet, scale_1.
Qed.

Lemma transpose_transpose (R : Matrix3 K) : transpose (transpose R) = R.
Proof. by destruct R as [[] [] []]. Qed.

Lemma orthonormal_transpose (R : Matrix3 K) :
  orthonormal R → mulMM R (transpose R) = Identity3.
Proof. apply left_inverse_right. Qed.

Lemma mulMV_transpose_l (R : Matrix3 K) x :
  orthonormal R → mulMV (transpose R) (mulMV R x) = x.
Proof. intros HR. by rewrite mulMV_mulMM, HR, mulMV_Identity3. Qed.

Lemma mulMV_transpose_r (R : Matrix3 K) x :
  orthonormal R → mulMV R (mulMV (transpose R) x) = x.
Proof.
  intros HR. by rewrite mulMV_mulMM, orthonormal_transpose, mulMV_Identity3.
Qed.

Lemma dot_mulMV (R : Matrix3 K) x y :
  dot (mulMV R x) (mulMV R y) = dot x (mulMV (mulMM (transpose R) R) y).
Proof. by_ring. Qed.

Lemma dot_rotation (R : Matrix3 K) x y :
  orthonormal R → dot (mulMV R x) (mulMV R y) = dot x y.
Proof. intros HR. by rewrite dot_mulMV, HR, mulMV_Identity3. Qed.

Lemma dot_rotation_transpose (R : Matrix3 K) x y :
  orthonormal R → dot (mulMV (transpose R) x) (mulMV (transpose R) y) = dot x y.
Proof.
  intros HR.
  by rewrite dot_mulMV, transpose_transpose, orthonormal_transpose,
    mulMV_Identity3.
Qed.

Lemma vsub_vadd_cancel (a b : Vector3 K) : vsub (vadd a b) a = b.
Proof. by_ring. Qed.

Lemma vadd_vsub_cancel (a b : Vector3 K) : vadd a (vsub b a) = b.
Proof. by_ring. Qed.

Lemma cross_self (a : Vector3 K) : cross a a = Zero3.
Proof. by_ring. Qed.

Lemma cross_antisym_sum (a b : Vector3 K) :
  vadd (cross a b) (cross b a) = Zero3.
Proof. by_ring. Qed.

(** The mixed terms of the pairing cancel: [a . (p x c) + (p x a) . c = 0]. *)
Lemma pairing_shift (p a b c d : Vector3 K) :
  dot a (vadd (cross p c) d) + dot (vadd (cross p a) b) c
  = dot a d + dot b c.
Proof. by_ring. Qed.

Lemma pairing_unshift (p a b c d : Vector3 K) :
  dot a (vsub d (cross p c)) + dot (vsub b (cross p a)) c
  = dot a d + dot b c.
Proof. by_ring. Qed.

(** The column functions of the kernels, over a ring. *)

Lemma motion_se3Action_scenario :
  motion_se3Action (mkSE3 Identity3 (V3 1 0 0)) (V6 (V3 0 0 0) (V3 0 0 1))
  = V6 (V3 0 (kopp 1) 0) (V3 0 0 1).
Proof.
  unfold motion_se3Action; simpl.
  unfold mulMV, vadd, cross, dot, Identity3; simpl.
  f_equal; apply V3_eq; ring.
Qed.

Lemma motion_se3Action_inverse (m : SE3 K) X :
  orthonormal (rotation m) →
  motion_se3ActionInverse m (motion_se3Action m X) = X.
Proof.
  intros HR. destruct X as [l a]. unfold motion_se3ActionInverse,
    motion_se3Action; simpl.
  by rewrite vsub_vadd_cancel, !mulMV_transpose_l.
Qed.

Lemma motion_se3ActionInverse_inverse (m : SE3 K) X :
  orthonormal (rotation m) →
  motion_se3Action m (motion_se3ActionInverse m X) = X.
Proof.
  intros HR. destruct X as [l a]. unfold motion_se3ActionInverse,
    motion_se3Action; simpl.
  by rewrite !mulMV_transpose_r, vadd_vsub_cancel.
Qed.

Lemma force_se3Action_inverse (m : SE3 K) X :
  orthonormal (rotation m) →
  force_se3ActionInverse m (force_se3Action m X) = X.
Proof.
  intros HR. destruct X as [l a]. unfold force_se3ActionInverse,
    force_se3Action; simpl.
  by rewrite vsub_vadd_cancel, !mulMV_transpose_l.
Qed.

Lemma force_se3ActionInverse_inverse (m : SE3 K) X :
  orthonormal (rotation m) →
  force_se3Action m (force_se3ActionInverse m X) = X.
Proof.
  intros HR. destruct X as [l a]. unfold force_se3ActionInverse,
    force_se3Action; simpl.
  by rewrite !mulMV_transpose_r, vadd_vsub_cancel.
Qed.

Lemma pairing_se3Action (m : SE3 K) f v :
  orthonormal (rotation m) →
  pairing (force_se3Action m f) (motion_se3Action m v) = pairing f v.
Proof.
  intros HR. destruct f as [fl fa], v as [vl va].
  unfold pairing, force_se3Action, motion_se3Action; simpl.
  by rewrite pairing_shift, !dot_rotation.
Qed.

Lemma pairing_se3ActionInverse (m : SE3 K) f v :
  orthonormal (rotation m) →
  pairing (force_se3ActionInverse m f) (motion_se3ActionInverse m v)
  = pairing f v.
Proof.
  intros HR. destruct f as [fl fa], v as [vl va].
  unfold pairing, force_se3ActionInverse, motion_se3ActionInverse; simpl.
  by rewrite !dot_rotation_transpose, pairing_unshift.
Qed.

Lemma Motion_motionAction_self (v : Motion K) :
  Motion_motionAction v (toVector v) = Zero6.
Proof.
  destruct v as [l a]. unfold Motion_motionAction, toVector, Zero6; simpl.
  by rewrite cross_self, cross_antisym_sum.
Qed.
End Algebra.

(** ** The entry points *)

Lemma lookup_eq_of_cols {K : Type} (st st' : Store K) b :
  length <$> st' !! b = length <$> st !! b →
  (∀ j, get_col (Col b j) st' = get_col (Col b j) st) →
  st' !! b = st !! b.
Proof.
  unfold get_col; simpl. intros Hlen Hget.
  destruct (st' !! b) as [M'|], (st !! b) as [M|]; simpl in *; try done.
  f_equal. apply list_eq, Hget.
Qed.

Lemma separate_sym (a b : Xpr) : separate a b → separate b a.
Proof. destruct a, b; simpl; congruence. Qed.

Lemma xread_length_1 {K : Type} (r : ColXpr) (st : Store K) X :
  xread (VecXpr r) st = Some X → ∃ x, get_col r st = Some x ∧ X = [x].
Proof.
  simpl. destruct (get_col r st) as [x|]; simpl; [|done].
  intros [= <-]. by exists x.
Qed.

Lemma xread_xwrite_separate {K : Type} (a b : Xpr) (Y : list (Vector6 K)) st :
  separate a b → xread a (xwrite b Y st) = xread a st.
Proof.
  destruct a as [i|bi], b as [o|bo]; simpl; try done; intros Hne.
  - destruct Y; [done|]. by rewrite get_col_set_col_ne.
  - by rewrite lookup_insert_ne.
Qed.

Lemma xread_xwrite {K : Type} (b : Xpr) (Y Y' : list (Vector6 K)) st :
  xread b st = Some Y → length Y' = length Y →
  xread b (xwrite b Y' st) = Some Y'.
Proof.
  destruct b as [o|bo]; simpl.
  - destruct (get_col o st) as [y|] eqn:Ho; simpl; [|done].
    intros [= <-]. destruct Y' as [|y' [|]]; simpl; try done. intros _.
    by rewrite get_col_set_col_eq, Ho.
  - intros _ _. by rewrite lookup_insert_eq.
Qed.

Section Dispatch.
Context {K : Type} `{Scalar K} {A : Type}.
Variable run_1 : A → ColXpr → ColXpr → Cmd K.
Variable run : A → Xpr → Xpr → Cmd K.
Variable E : A → Xpr → Xpr → Cmd K.
Variables g g' : A → Vector6 K → Vector6 K.
Hypothesis run_1_effect :
  ∀ a i o st, run_1 a i o st = column_effect (g a) (g' a) i o st.
Hypothesis run_loop :
  ∀ a iF jF st,
    run a iF jF st
    = (n ← cols jF st; internal.colwise (run_1 a) iF jF 0 n st).
Hypothesis E_dispatch :
  ∀ a iF jF, E a iF jF = internal.dispatch run_1 run a iF jF.

Lemma entry_VecXpr a i o : E a (VecXpr i) (VecXpr o) = run_1 a i o.
Proof. by rewrite E_dispatch. Qed.

Lemma entry_MatXpr a bi bo st Mi Mo :
  st !! bi = Some Mi → st !! bo = Some Mo → length Mi = length Mo →
  E a (MatXpr bi) (MatXpr bo) st
  = Some (<[bo := (if decide (bi = bo) then g' a else g a) <$> Mi]> st).
Proof.
  intros HMi HMo Hlen. rewrite E_dispatch. simpl. rewrite run_loop. simpl.
  rewrite HMo. simpl.
  by apply (colwise_all (run_1 a) (g a) (g' a) (run_1_effect a)).
Qed.

Lemma entry_writes_output_only a : writes_output_only (E a).
Proof.
  intros iF jF st st'. rewrite E_dispatch.
  destruct iF as [i|bi]; simpl.
  - destruct jF as [o|bo]; [|done].
    rewrite run_1_effect. intros [y ->]%column_effect_Some. split.
    + intros b. apply lookup_set_col_length.
    + intros r Hr. apply get_col_set_col_ne. simpl in Hr. congruence.
  - rewrite run_loop. destruct (cols jF st) as [n|]; simpl; [|done].
    apply (colwise_frame (run_1 a) (g a) (g' a) (run_1_effect a)).
Qed.

Lemma entry_keeps_separate_input a : keeps_separate_input (E a).
Proof.
  intros iF jF st st' Hsep [Hlen Hget]%entry_writes_output_only.
  destruct iF as [i|bi], jF as [o|bo]; simpl in *; try done.
  - by rewrite Hget.
  - apply lookup_eq_of_cols; [done|]. intros j. by apply Hget.
Qed.

Lemma entry_batch_equivalent a : batch_equivalent (E a) (run_1 a).
Proof.
  split; [apply entry_VecXpr|].
  intros bi bo st Mi Mo HMi HMo Hlen.
  eexists. split; [by apply (entry_MatXpr a bi bo st Mi Mo)|].
  intros c Hc. destruct (lookup_lt_is_Some_2 Mi c Hc) as [X HX].
  eexists. split.
  - apply (f_on_columns (run_1 a) (g a) (g' a) (run_1_effect a)
             bi bo c st Mi Mo X); [done..|lia].
  - rewrite !(get_col_Col bo c _ _ (lookup_insert_eq _ _ _)).
    rewrite list_lookup_fmap, HX. simpl.
    symmetry. apply list_lookup_insert_eq. lia.
Qed.

Lemma entry_separate a iF jF st X Y :
  separate iF jF → xread iF st = Some X → xread jF st = Some Y →
  length Y = length X →
  E a iF jF st = Some (xwrite jF (g a <$> X) st).
Proof.
  destruct iF as [i|bi], jF as [o|bo]; simpl; try done; intros Hne.
  - intros (x & Hx & ->)%xread_length_1 (y & Hy & ->)%xread_length_1 _.
    rewrite entry_VecXpr, run_1_effect. unfold column_effect.
    rewrite Hx, Hy. simpl. by rewrite decide_False.
  - intros HMi HMo Hlen.
    rewrite (entry_MatXpr a bi bo st X Y) by done.
    by rewrite decide_False.
Qed.

(** Two calls in a row, the second reading what the first wrote. *)
Lemma entry_then (E2 : Xpr → Xpr → Cmd K) (g2 : Vector6 K → Vector6 K) a :
  (∀ iF jF st X Y, separate iF jF → xread iF st = Some X →
     xread jF st = Some Y → length Y = length X →
     E2 iF jF st = Some (xwrite jF (g2 <$> X) st)) →
  (∀ x, g2 (g a x) = x) →
  round_trip (E a) E2.
Proof.
  intros HE2 Hinv a0 b c st X Y Z Hab Hbc HX HY HZ HlY HlZ. unfold seq.
  rewrite (entry_separate a a0 b st X Y) by done. simpl.
  rewrite (HE2 b c _ (g a <$> X) Z); try done.
  - eexists. split; [done|].
    rewrite (xread_xwrite c Z).
    + f_equal. rewrite <- list_fmap_compose.
      rewrite <- (list_fmap_id X) at 2. apply list_fmap_ext.
      intros _ x _. apply Hinv.
    + rewrite xread_xwrite_separate; [done|]. by apply separate_sym.
    + by rewrite !length_fmap.
  - apply (xread_xwrite b Y); [done|]. by rewrite length_fmap.
  - rewrite xread_xwrite_separate; [done|]. by apply separate_sym.
  - by rewrite length_fmap.
Qed.
End Dispatch.

(** ** The six operations *)

Section Operations.
Context {K : Type} `{Scalar K}.
Implicit Types (m : SE3 K) (v : Motion K) (st : Store K).

Lemma motionSet_se3Action_VecXpr m i o st :
  motionSet.se3Action m (VecXpr i) (VecXpr o) st
  = column_effect (motion_se3Action m) (motion_se3Action m) i o st.
Proof. apply MotionSetSe3Action_1_run_effect. Qed.

Lemma motionSet_se3ActionInverse_VecXpr m i o st :
  motionSet.se3ActionInverse m (VecXpr i) (VecXpr o) st
  = column_effect (motion_se3ActionInverse m)
      (motion_se3ActionInverse_inplace m) i o st.
Proof. apply MotionSetSe3ActionInverse_1_run_effect. Qed.

Lemma forceSet_se3Action_VecXpr m i o st :
  forceSet.se3Action m (VecXpr i) (VecXpr o) st
  = column_effect (force_se3Action m) (force_se3Action m) i o st.
Proof. apply ForceSetSe3Action_1_run_effect. Qed.

Lemma forceSet_se3ActionInverse_VecXpr m i o st :
  forceSet.se3ActionInverse m (VecXpr i) (VecXpr o) st
  = column_effect (force_se3ActionInverse m)
      (force_se3ActionInverse_inplace m) i o st.
Proof. apply ForceSetSe3ActionInverse_1_run_effect. Qed.

Lemma motionSet_motionAction_VecXpr v i o st :
  motionSet.motionAction v (VecXpr i) (VecXpr o) st
  = column_effect (Motion_motionAction v) (Motion_motionAction v) i o st.
Proof. apply MotionSetMotionAction_1_run_effect. Qed.

Lemma forceSet_motionAction_VecXpr v i o st :
  forceSet.motionAction v (VecXpr i) (VecXpr o) st
  = column_effect (Force_motionAction v) (Force_motionAction v) i o st.
Proof. apply ForceSetMotionAction_1_run_effect. Qed.

(** With output storage distinct from the input. *)
Lemma column_effect_separate (g g' : Vector6 K → Vector6 K) i o st X :
  i ≠ o → get_col i st = Some X → is_Some (get_col o st) →
  column_effect g g' i o st = Some (set_col o (g X) st).
Proof.
  intros Hne HX [Y HY]. unfold column_effect. rewrite HX, HY. simpl.
  by rewrite decide_False.
Qed.

(** With the output column being the input column. *)
Lemma column_effect_inplace (g g' : Vector6 K → Vector6 K) c st X :
  get_col c st = Some X →
  column_effect g g' c c st = Some (set_col c (g' X) st).
Proof.
  intros HX. unfold column_effect. rewrite HX. simpl. by rewrite decide_True.
Qed.
End Operations.

Section Entries.
Context {K : Type} `{Scalar K} {A : Type}.
Variable E : A → Xpr → Xpr → Cmd K.
Variable run_1 : A → ColXpr → ColXpr → Cmd K.
Variables g g' : A → Vector6 K → Vector6 K.
Hypothesis HE : colwise_entry E run_1 g g'.

Lemma colwise_entry_batch a : batch_equivalent (E a) (run_1 a).
Proof.
  destruct HE as (H1 & run & H2 & H3).
  by apply (entry_batch_equivalent run_1 run E g g').
Qed.

Lemma colwise_entry_separate a iF jF st X Y :
  separate iF jF → xread iF st = Some X → xread jF st = Some Y →
  length Y = length X →
  E a iF jF st = Some (xwrite jF (g a <$> X) st).
Proof.
  destruct HE as (H1 & run & H2 & H3).
  by apply (entry_separate run_1 run E g g').
Qed.

Lemma colwise_entry_frame a : respects_frame (E a) (run_1 a).
Proof.
  pose proof colwise_entry_separate as Hsep.
  destruct HE as (H1 & run & H2 & H3).
  split; [|split; [|split]].
  - exists (g a), (g' a). apply H1.
  - by apply (entry_writes_output_only run_1 run E g g').
  - by apply (entry_keeps_separate_input run_1 run E g g').
  - intros iF jF st X Y ????. by rewrite (Hsep a iF jF st X Y).
Qed.
End Entries.

Lemma colwise_entry_round_trip {K : Type} `{Scalar K} {A1 A2 : Type}
    (E1 : A1 → Xpr → Xpr → Cmd K) k1 g1 g1'
    (E2 : A2 → Xpr → Xpr → Cmd K) k2 g2 g2' a1 a2 :
  colwise_entry E1 k1 g1 g1' → colwise_entry E2 k2 g2 g2' →
  (∀ x, g2 a2 (g1 a1 x) = x) →
  round_trip (E1 a1) (E2 a2).
Proof.
  intros HE1 HE2 Hinv.
  pose proof (colwise_entry_separate E2 k2 g2 g2' HE2 a2) as Hsep.
  destruct HE1 as (H1 & run & H2 & H3).
  by apply (entry_then k1 run E1 g1 g1' H1 H2 H3 (E2 a2) (g2 a2)).
Qed.

Section TheEntries.
Context {K : Type} `{Scalar K}.

Lemma motionSet_se3Action_entry :
  colwise_entry motionSet.se3Action internal.MotionSetSe3Action_1_run
    motion_se3Action motion_se3Action.
Proof.
  split; [apply MotionSetSe3Action_1_run_effect|].
  by exists internal.MotionSetSe3Action_run.
Qed.

Lemma motionSet_se3ActionInverse_entry :
  colwise_entry motionSet.se3ActionInverse
    internal.MotionSetSe3ActionInverse_1_run
    motion_se3ActionInverse motion_se3ActionInverse_inplace.
Proof.
  split; [apply MotionSetSe3ActionInverse_1_run_effect|].
  by exists internal.MotionSetSe3ActionInverse_run.
Qed.

Lemma motionSet_motionAction_entry :
  colwise_entry motionSet.motionAction internal.MotionSetMotionAction_1_run
    Motion_motionAction Motion_motionAction.
Proof.
  split; [apply MotionSetMotionAction_1_run_effect|].
  by exists internal.MotionSetMotionAction_run.
Qed.

Lemma forceSet_se3Action_entry :
  colwise_entry forceSet.se3Action internal.ForceSetSe3Action_1_run
    force_se3Action force_se3Action.
Proof.
  split; [apply ForceSetSe3Action_1_run_effect|].
  by exists internal.ForceSetSe3Action_run.
Qed.

Lemma forceSet_se3ActionInverse_entry :
  colwise_entry forceSet.se3ActionInverse
    internal.ForceSetSe3ActionInverse_1_run
    force_se3ActionInverse force_se3ActionInverse_inplace.
Proof.
  split; [apply ForceSetSe3ActionInverse_1_run_effect|].
  by exists internal.ForceSetSe3ActionInverse_run.
Qed.

Lemma forceSet_motionAction_entry :
  colwise_entry forceSet.motionAction internal.ForceSetMotionAction_1_run
    Force_motionAction Force_motionAction.
Proof.
  split; [apply ForceSetMotionAction_1_run_effect|].
  by exists internal.ForceSetMotionAction_run.
Qed.
End TheEntries.

(** The kernels make no use of the laws of a ring, so that what is proved
    of them without [ScalarRing] holds of binary64 as well; the results that
    assume [ScalarRing] are about exact arithmetic, which binary64, where
    operations round, is not.  The scenario of the unit angular velocity is
    met exactly in binary64: no operation of it rounds. *)
Example motionSet_se3Action_binary64 :
  motionSet.se3Action (mkSE3 Identity3 (V3 1 0 0)%float)
    (VecXpr (Col 0 0)) (VecXpr (Col 1 0)) st_b64
  = Some (set_col (Col 1 0) (V6 (V3 0 (-1) 0) (V3 0 0 1))%float st_b64).
Proof. vm_compute. reflexivity. Qed.

(** ** The claims *)

(** C2: for every transform [m = (R, p)] and every motion [v] in a column
    [iV], with the output column [jV] distinct from it, [motionSet.se3Action]
    leaves [v'_ang = R v_ang] in rows 3-5 and
    [v'_lin = p x v'_ang + R v_lin] in rows 0-2 of [jV]; over a ring of
    scalars, for [R] the identity, [p = (1,0,0)] and
    [v = ((0,0,0),(0,0,1))] the result is [((0,-1,0),(0,0,1))]. *)
Theorem C2_motion_se3Action (K : Type) (SK : Scalar K) :
  (∀ (m : SE3 K) (iV jV : ColXpr) (st : Store K) (v : Vector6 K),
     iV ≠ jV → get_col iV st = Some v → is_Some (get_col jV st) →
     let R := rotation m in
     let p := translation m in
     let v'_ang := mulMV R (v_tail v) in
     let v'_lin := vadd (cross p v'_ang) (mulMV R (v_head v)) in
     ∃ st' v',
       motionSet.se3Action m (VecXpr iV) (VecXpr jV) st = Some st'
       ∧ st' = set_col jV v' st
       ∧ get_col jV st' = Some v'
       ∧ v' = V6 v'_lin v'_ang
       ∧ coeff v' <$> [0; 1; 2] = Some <$> [cx v'_lin; cy v'_lin; cz v'_lin]
       ∧ coeff v' <$> [3; 4; 5] = Some <$> [cx v'_ang; cy v'_ang; cz v'_ang])
  ∧ (ScalarRing K →
     ∀ (iV jV : ColXpr) (st : Store K),
       iV ≠ jV →
       get_col iV st = Some (V6 (V3 0 0 0) (V3 0 0 1))%K →
       is_Some (get_col jV st) →
       motionSet.se3Action (mkSE3 Identity3 (V3 1 0 0)%K)
         (VecXpr iV) (VecXpr jV) st
       = Some (set_col jV (V6 (V3 0 (kopp 1) 0) (V3 0 0 1))%K st)).
Proof.
  split.
  - intros m iV jV st v Hne Hv Hj R p v'_ang v'_lin.
    exists (set_col jV (V6 v'_lin v'_ang) st), (V6 v'_lin v'_ang).
    rewrite motionSet_se3Action_VecXpr.
    rewrite (column_effect_separate _ _ iV jV st v) by done.
    repeat split.
    destruct Hj as [w Hw]. by rewrite get_col_set_col_eq, Hw.
  - intros Kring iV jV st Hne Hv Hj.
    rewrite motionSet_se3Action_VecXpr.
    rewrite (column_effect_separate _ _ iV jV st _ Hne Hv Hj).
    by rewrite motion_se3Action_scenario.
Qed.

Lemma C2_witness :
  Col 0 0 ≠ Col 2 0
  ∧ get_col (Col 0 0) st_x = Some (V6 (zv 0 0 0) (zv 0 0 1))
  ∧ is_Some (get_col (Col 2 0) st_x)
  ∧ motionSet.se3Action m_x (VecXpr (Col 0 0)) (VecXpr (Col 2 0)) st_x
    = Some (set_col (Col 2 0) (V6 (zv 0 (-1) 0) (zv 0 0 1)) st_x).
Proof.
  assert (Hne : Col 0 0 ≠ Col 2 0) by discriminate.
  assert (Hj : is_Some (get_col (Col 2 0) st_x)) by (eexists; reflexivity).
  split; [exact Hne|]. split; [reflexivity|]. split; [exact Hj|].
  exact (proj2 (C2_motion_se3Action Z Z_Scalar) Z_ScalarRing
           (Col 0 0) (Col 2 0) st_x Hne eq_refl Hj).
Defined.

(** C3: for every transform [m = (R, p)] and every motion [v] in a column
    [iV], with the output column [jV] distinct from it,
    [motionSet.se3ActionInverse] leaves
    [v'_lin = R^T (v_lin - p x v_ang)] and [v'_ang = R^T v_ang] in [jV];
    only the transpose of [R] is taken, no inverse of [m] is formed, and the
    result is the action of the inverse transform: over a ring of scalars
    and for [R] orthonormal, [motionSet.se3Action] of [m] takes it back to
    [v]. *)
Theorem C3_motion_se3ActionInverse (K : Type) (SK : Scalar K)
    (m : SE3 K) (iV jV : ColXpr) (st : Store K) (v : Vector6 K) :
  iV ≠ jV → get_col iV st = Some v → is_Some (get_col jV st) →
  let R := rotation m in
  let p := translation m in
  let v_lin := v_head v in
  let v_ang := v_tail v in
  let v' := V6 (mulMV (transpose R) (vsub v_lin (cross p v_ang)))
               (mulMV (transpose R) v_ang) in
  motionSet.se3ActionInverse m (VecXpr iV) (VecXpr jV) st
  = Some (set_col jV v' st)
  ∧ get_col jV (set_col jV v' st) = Some v'
  ∧ (ScalarRing K → orthonormal R →
     ∀ kV, jV ≠ kV → is_Some (get_col kV st) →
       motionSet.se3Action m (VecXpr jV) (VecXpr kV) (set_col jV v' st)
       = Some (set_col kV v (set_col jV v' st))).
Proof.
  intros Hne Hv Hj R p v_lin v_ang v'.
  assert (Hv' : get_col jV (set_col jV v' st) = Some v').
  { destruct Hj as [w Hw]. by rewrite get_col_set_col_eq, Hw. }
  split_and!; [|done|].
  - rewrite motionSet_se3ActionInverse_VecXpr.
    by rewrite (column_effect_separate _ _ iV jV st v).
  - intros Kring HR kV Hjk Hk.
    rewrite motionSet_se3Action_VecXpr.
    rewrite (column_effect_separate _ _ jV kV _ v' Hjk Hv').
    + do 2 f_equal. by apply (motion_se3ActionInverse_inverse Kring m v).
    + by rewrite get_col_set_col_ne.
Qed.

Lemma C3_witness :
  Col 0 0 ≠ Col 2 0
  ∧ get_col (Col 0 0) st_x = Some (V6 (zv 0 0 0) (zv 0 0 1))
  ∧ is_Some (get_col (Col 2 0) st_x)
  ∧ motionSet.se3ActionInverse m_x (VecXpr (Col 0 0)) (VecXpr (Col 2 0)) st_x
    = Some (set_col (Col 2 0) (V6 (zv 0 1 0) (zv 0 0 1)) st_x).
Proof.
  assert (Hne : Col 0 0 ≠ Col 2 0) by discriminate.
  assert (Hj : is_Some (get_col (Col 2 0) st_x)) by (eexists; reflexivity).
  split; [exact Hne|]. split; [reflexivity|]. split; [exact Hj|].
  exact (proj1 (C3_motion_se3ActionInverse Z Z_Scalar m_x (Col 0 0) (Col 2 0)
                  st_x _ Hne eq_refl Hj)).
Defined.

(** C4: for every transform [m = (R, p)] and every force [f] in a column
    [iF], with the output column [jF] distinct from it, [forceSet.se3Action]
    leaves [f'_lin = R f_lin] and [f'_ang = p x f'_lin + R f_ang] in [jF]. *)
Theorem C4_force_se3Action (K : Type) (SK : Scalar K)
    (m : SE3 K) (iF jF : ColXpr) (st : Store K) (f : Vector6 K) :
  iF ≠ jF → get_col iF st = Some f → is_Some (get_col jF st) →
  let R := rotation m in
  let p := translation m in
  let f'_lin := mulMV R (v_head f) in
  let f'_ang := vadd (cross p f'_lin) (mulMV R (v_tail f)) in
  let f' := V6 f'_lin f'_ang in
  forceSet.se3Action m (VecXpr iF) (VecXpr jF) st = Some (set_col jF f' st)
  ∧ get_col jF (set_col jF f' st) = Some f'.
Proof.
  intros Hne Hf Hj R p f'_lin f'_ang f'. split.
  - rewrite forceSet_se3Action_VecXpr.
    by rewrite (column_effect_separate _ _ iF jF st f).
  - destruct Hj as [w Hw]. by rewrite get_col_set_col_eq, Hw.
Qed.

Lemma C4_witness :
  Col 1 0 ≠ Col 2 0
  ∧ get_col (Col 1 0) st_x = Some (V6 (zv 0 1 0) (zv 0 0 0))
  ∧ is_Some (get_col (Col 2 0) st_x)
  ∧ forceSet.se3Action m_x (VecXpr (Col 1 0)) (VecXpr (Col 2 0)) st_x
    = Some (set_col (Col 2 0) (V6 (zv 0 1 0) (zv 0 0 1)) st_x).
Proof.
  assert (Hne : Col 1 0 ≠ Col 2 0) by discriminate.
  assert (Hj : is_Some (get_col (Col 2 0) st_x)) by (eexists; reflexivity).
  split; [exact Hne|]. split; [reflexivity|]. split; [exact Hj|].
  exact (proj1 (C4_force_se3Action Z Z_Scalar m_x (Col 1 0) (Col 2 0)
                  st_x _ Hne eq_refl Hj)).
Defined.

(** C5: for every transform [m = (R, p)] and every force [f] in a column
    [iF], with the output column [jF] distinct from it,
    [forceSet.se3ActionInverse] leaves
    [f'_ang = R^T (f_ang - p x f_lin)] and [f'_lin = R^T f_lin] in [jF]. *)
Theorem C5_force_se3ActionInverse (K : Type) (SK : Scalar K)
    (m : SE3 K) (iF jF : ColXpr) (st : Store K) (f : Vector6 K) :
  iF ≠ jF → get_col iF st = Some f → is_Some (get_col jF st) →
  let R := rotation m in
  let p := translation m in
  let f_lin := v_head f in
  let f_ang := v_tail f in
  let f' := V6 (mulMV (transpose R) f_lin)
               (mulMV (transpose R) (vsub f_ang (cross p f_lin))) in
  forceSet.se3ActionInverse m (VecXpr iF) (VecXpr jF) st
  = Some (set_col jF f' st)
  ∧ get_col jF (set_col jF f' st) = Some f'.
Proof.
  intros Hne Hf Hj R p f_lin f_ang f'. split.
  - rewrite forceSet_se3ActionInverse_VecXpr.
    by rewrite (column_effect_separate _ _ iF jF st f).
  - destruct Hj as [w Hw]. by rewrite get_col_set_col_eq, Hw.
Qed.

Lemma C5_witness :
  Col 1 0 ≠ Col 2 0
  ∧ get_col (Col 1 0) st_x = Some (V6 (zv 0 1 0) (zv 0 0 0))
  ∧ is_Some (get_col (Col 2 0) st_x)
  ∧ forceSet.se3ActionInverse m_x (VecXpr (Col 1 0)) (VecXpr (Col 2 0)) st_x
    = Some (set_col (Col 2 0) (V6 (zv 0 1 0) (zv 0 0 (-1))) st_x).
Proof.
  assert (Hne : Col 1 0 ≠ Col 2 0) by discriminate.
  assert (Hj : is_Some (get_col (Col 2 0) st_x)) by (eexists; reflexivity).
  split; [exact Hne|]. split; [reflexivity|]. split; [exact Hj|].
  exact (proj1 (C5_force_se3ActionInverse Z Z_Scalar m_x (Col 1 0) (Col 2 0)
                  st_x _ Hne eq_refl Hj)).
Defined.

(** C8, as amended: for every motion [v] and every column [X], with the
    output column distinct from the input column, [motionAction] leaves the
    bracket in the output: for a motion column [dX_ang = v_ang x X_ang] and
    [dX_lin = v_ang x X_lin + v_lin x X_ang]; for a force column
    [dX_lin = v_ang x X_lin] and [dX_ang = v_ang x X_ang + v_lin x X_lin];
    and in exact arithmetic (the scalars a commutative ring) the bracket of
    a motion with itself is zero. *)
Theorem C8_motionAction (K : Type) (SK : Scalar K)
    (v : Motion K) (i o : ColXpr) (st : Store K) (X : Vector6 K) :
  i ≠ o → get_col i st = Some X → is_Some (get_col o st) →
  let v_lin := linear v in
  let v_ang := angular v in
  let X_lin := v_head X in
  let X_ang := v_tail X in
  motionSet.motionAction v (VecXpr i) (VecXpr o) st
  = Some (set_col o (V6 (vadd (cross v_ang X_lin) (cross v_lin X_ang))
                        (cross v_ang X_ang)) st)
  ∧ forceSet.motionAction v (VecXpr i) (VecXpr o) st
    = Some (set_col o (V6 (cross v_ang X_lin)
                          (vadd (cross v_ang X_ang) (cross v_lin X_lin))) st)
  ∧ (ScalarRing K → X = toVector v →
     motionSet.motionAction v (VecXpr i) (VecXpr o) st
     = Some (set_col o Zero6 st)).
Proof.
  intros Hne HX Ho v_lin v_ang X_lin X_ang.
  rewrite motionSet_motionAction_VecXpr, forceSet_motionAction_VecXpr.
  rewrite !(column_effect_separate _ _ i o st X) by done.
  repeat split. intros Kring ->. by rewrite Motion_motionAction_self.
Qed.

Lemma C8_witness :
  Col 0 0 ≠ Col 1 0
  ∧ get_col (Col 0 0) st_2 = Some (toVector v_z)
  ∧ is_Some (get_col (Col 1 0) st_2)
  ∧ motionSet.motionAction v_z (VecXpr (Col 0 0)) (VecXpr (Col 1 0)) st_2
    = Some (set_col (Col 1 0) Zero6 st_2)
  ∧ forceSet.motionAction v_z (VecXpr (Col 0 0)) (VecXpr (Col 1 0)) st_2
    = Some (set_col (Col 1 0) (V6 (zv 3 (-6) 3) (zv 0 0 0)) st_2)
  ∧ motionSet.motionAction v_z (VecXpr (Col 0 1)) (VecXpr (Col 1 0)) st_2
    = Some (set_col (Col 1 0) (V6 (zv (-4) (-1) 4) (zv 5 (-4) 0)) st_2).
Proof.
  assert (Hne : Col 0 0 ≠ Col 1 0) by discriminate.
  assert (Hne' : Col 0 1 ≠ Col 1 0) by discriminate.
  assert (Hj : is_Some (get_col (Col 1 0) st_2)) by (eexists; reflexivity).
  pose proof (C8_motionAction Z Z_Scalar v_z (Col 0 0) (Col 1 0) st_2 _
                Hne eq_refl Hj) as (_ & Hforce & Hself).
  pose proof (C8_motionAction Z Z_Scalar v_z (Col 0 1) (Col 1 0) st_2 _
                Hne' eq_refl Hj) as (Hmotion & _).
  split; [exact Hne|]. split; [reflexivity|]. split; [exact Hj|].
  split; [exact (Hself Z_ScalarRing eq_refl)|].
  split; [exact Hforce | exact Hmotion].
Defined.

(** The claim C8 as it is worded fails in binary64, the arithmetic of the
    library: for the finite angular part [(2^600, 2^600, 0)] the products
    of the cross product overflow, and the bracket of the motion with
    itself has a coefficient that is not a number. *)
Lemma C8_counterexample :
  get_col (Col 4 0) st_b64_round = Some (toVector v_b64)
  ∧ ∃ st' Y,
      motionSet.motionAction v_b64 (VecXpr (Col 4 0)) (VecXpr (Col 2 0))
        st_b64_round = Some st'
      ∧ get_col (Col 2 0) st' = Some Y
      ∧ PrimFloat.is_nan (cz (v_tail Y)) = true
      ∧ Y ≠ Zero6.
Proof.
  split; [reflexivity|].
  eexists _, _. split; [reflexivity|]. split; [reflexivity|].
  split; [reflexivity|].
  intros HY.
  apply (f_equal (λ X : Vector6 float, PrimFloat.is_nan (cz (v_tail X))))
    in HY.
  vm_compute in HY. discriminate.
Qed.

(** C10: when the kernel of [se3ActionInverse] for one column is run with
    the output column being the input column itself, the two halves of the
    result are equal: both [R^T (v_lin - p x v_ang)] for motions, both
    [R^T (f_ang - p x f_lin)] for forces; and there are such calls whose
    result is not the inverse action of the column. *)
Theorem C10_se3ActionInverse_inplace :
  (∀ (K : Type) (SK : Scalar K) (m : SE3 K) (c : ColXpr) (st : Store K)
     (X : Vector6 K),
     get_col c st = Some X →
     let R := rotation m in
     let p := translation m in
     let t := mulMV (transpose R) (vsub (v_head X) (cross p (v_tail X))) in
     let s := mulMV (transpose R) (vsub (v_tail X) (cross p (v_head X))) in
     internal.MotionSetSe3ActionInverse_1_run m c c st
     = Some (set_col c (V6 t t) st)
     ∧ internal.ForceSetSe3ActionInverse_1_run m c c st
       = Some (set_col c (V6 s s) st)
     ∧ get_col c (set_col c (V6 t t) st) = Some (V6 t t)
     ∧ get_col c (set_col c (V6 s s) st) = Some (V6 s s))
  ∧ (∃ (m : SE3 Z) (c : ColXpr) (st st1 st2 : Store Z) (X : Vector6 Z),
       get_col c st = Some X
       ∧ internal.MotionSetSe3ActionInverse_1_run m c c st = Some st1
       ∧ get_col c st1 ≠ Some (motion_se3ActionInverse m X)
       ∧ internal.ForceSetSe3ActionInverse_1_run m c c st = Some st2
       ∧ get_col c st2 ≠ Some (force_se3ActionInverse m X)).
Proof.
  split.
  - intros K SK m c st X HX R p t s.
    rewrite MotionSetSe3ActionInverse_1_run_effect,
      ForceSetSe3ActionInverse_1_run_effect.
    rewrite !(column_effect_inplace _ _ c st X HX).
    rewrite !get_col_set_col_eq, HX. done.
  - exists m_x, (Col 0 0), st_x.
    eexists _, _, _. split; [reflexivity|].
    split; [reflexivity|]. split; [discriminate|].
    split; [reflexivity|]. discriminate.
Qed.

Lemma C10_witness :
  get_col (Col 0 0) st_x = Some (V6 (zv 0 0 0) (zv 0 0 1))
  ∧ internal.MotionSetSe3ActionInverse_1_run m_x (Col 0 0) (Col 0 0) st_x
    = Some (set_col (Col 0 0) (V6 (zv 0 1 0) (zv 0 1 0)) st_x)
  ∧ internal.ForceSetSe3ActionInverse_1_run m_x (Col 0 0) (Col 0 0) st_x
    = Some (set_col (Col 0 0) (V6 (zv 0 0 1) (zv 0 0 1)) st_x).
Proof.
  split; [reflexivity|].
  pose proof (proj1 C10_se3ActionInverse_inplace Z Z_Scalar m_x (Col 0 0)
                st_x _ eq_refl) as (Hm & Hf & _).
  split; [exact Hm | exact Hf].
Defined.

(** C6: each of the six entry points, on vectors, is its kernel for one
    column; and on two matrices of [N] columns (any [N], so any [N > 1]) it
    succeeds and its output column [c], for every [c < N], is what the
    kernel alone leaves when run on column [c]. *)
Theorem C6_batch_equivalence (K : Type) (SK : Scalar K)
    (m : SE3 K) (v : Motion K) :
  batch_equivalent (motionSet.se3Action m)
    (internal.MotionSetSe3Action_1_run m)
  ∧ batch_equivalent (motionSet.se3ActionInverse m)
      (internal.MotionSetSe3ActionInverse_1_run m)
  ∧ batch_equivalent (motionSet.motionAction v)
      (internal.MotionSetMotionAction_1_run v)
  ∧ batch_equivalent (forceSet.se3Action m)
      (internal.ForceSetSe3Action_1_run m)
  ∧ batch_equivalent (forceSet.se3ActionInverse m)
      (internal.ForceSetSe3ActionInverse_1_run m)
  ∧ batch_equivalent (forceSet.motionAction v)
      (internal.ForceSetMotionAction_1_run v).
Proof.
  split_and!.
  - apply (colwise_entry_batch _ _ _ _ motionSet_se3Action_entry).
  - apply (colwise_entry_batch _ _ _ _ motionSet_se3ActionInverse_entry).
  - apply (colwise_entry_batch _ _ _ _ motionSet_motionAction_entry).
  - apply (colwise_entry_batch _ _ _ _ forceSet_se3Action_entry).
  - apply (colwise_entry_batch _ _ _ _ forceSet_se3ActionInverse_entry).
  - apply (colwise_entry_batch _ _ _ _ forceSet_motionAction_entry).
Qed.

Lemma C6_witness :
  st_2 !! 0 = Some M_in ∧ st_2 !! 1 = Some M_out
  ∧ length M_in = length M_out
  ∧ ∃ st',
      motionSet.se3ActionInverse m_z (MatXpr 0) (MatXpr 1) st_2 = Some st'
      ∧ ∀ c, c < length M_in →
          ∃ st_c,
            internal.MotionSetSe3ActionInverse_1_run m_z (Col 0 c) (Col 1 c)
              st_2 = Some st_c
            ∧ get_col (Col 1 c) st' = get_col (Col 1 c) st_c.
Proof.
  split; [reflexivity|]. split; [reflexivity|]. split; [reflexivity|].
  exact (proj2 (proj1 (proj2 (C6_batch_equivalence Z Z_Scalar m_z
                                (mkMotion (zv 0 0 0) (zv 0 0 1)))))
           0 1 st_2 M_in M_out eq_refl eq_refl eq_refl).
Defined.

(** C7, as amended: in exact arithmetic (the scalars a commutative ring),
    for every transform whose rotation is orthonormal, [R^T R = I], the two
    actions undo each other, in both orders, for motions and for forces, on
    vectors and on sets: after [se3Action] from [a] to [b] and
    [se3ActionInverse] from [b] to [c] (or the other way round), on
    distinct storage, the storage [c] holds the columns of [a]. *)
Theorem C7_round_trips (K : Type) (SK : Scalar K) (m : SE3 K) :
  ScalarRing K → orthonormal (rotation m) →
  round_trip (motionSet.se3Action m) (motionSet.se3ActionInverse m)
  ∧ round_trip (motionSet.se3ActionInverse m) (motionSet.se3Action m)
  ∧ round_trip (forceSet.se3Action m) (forceSet.se3ActionInverse m)
  ∧ round_trip (forceSet.se3ActionInverse m) (forceSet.se3Action m).
Proof.
  intros Kring HR. split_and!.
  - apply (colwise_entry_round_trip _ _ _ _ _ _ _ _ m m
             motionSet_se3Action_entry motionSet_se3ActionInverse_entry).
    intros x. by apply motion_se3Action_inverse.
  - apply (colwise_entry_round_trip _ _ _ _ _ _ _ _ m m
             motionSet_se3ActionInverse_entry motionSet_se3Action_entry).
    intros x. by apply motion_se3ActionInverse_inverse.
  - apply (colwise_entry_round_trip _ _ _ _ _ _ _ _ m m
             forceSet_se3Action_entry forceSet_se3ActionInverse_entry).
    intros x. by apply force_se3Action_inverse.
  - apply (colwise_entry_round_trip _ _ _ _ _ _ _ _ m m
             forceSet_se3ActionInverse_entry forceSet_se3Action_entry).
    intros x. by apply force_se3ActionInverse_inverse.
Qed.

Lemma C7_witness :
  orthonormal (rotation m_z)
  ∧ ∃ st',
      (motionSet.se3ActionInverse m_z (MatXpr 0) (MatXpr 1) ;;
       motionSet.se3Action m_z (MatXpr 1) (MatXpr 2)) st_2 = Some st'
      ∧ xread (MatXpr 2) st' = Some M_in.
Proof.
  assert (HR : orthonormal (rotation m_z)) by reflexivity.
  assert (Hne : ∀ a b : nat, Nat.eqb a b = false → a ≠ b)
    by (intros a b Hab ->; by rewrite Nat.eqb_refl in Hab).
  split; [exact HR|].
  exact (proj1 (proj2 (C7_round_trips Z Z_Scalar m_z Z_ScalarRing HR))
           (MatXpr 0) (MatXpr 1) (MatXpr 2) st_2 M_in M_out M_out
           (Hne 0 1 eq_refl) (Hne 1 2 eq_refl)
           eq_refl eq_refl eq_refl eq_refl eq_refl).
Defined.

(** The claim C7 as it is worded fails in binary64, the arithmetic of the
    library: with the identity rotation and the translation [(1,0,0)], the
    linear velocity [2^-54] along y is absorbed by [p x v'_ang = -1] in
    [se3Action], and [se3ActionInverse] does not give it back. *)
Lemma C7_counterexample :
  orthonormal (rotation m_b64)
  ∧ xread (VecXpr (Col 0 0)) st_b64_round
    = Some [V6 (V3 0 0x1p-54 0) (V3 0 0 1)]%float
  ∧ (∃ st',
       (motionSet.se3Action m_b64 (VecXpr (Col 0 0)) (VecXpr (Col 2 0)) ;;
        motionSet.se3ActionInverse m_b64 (VecXpr (Col 2 0)) (VecXpr (Col 3 0)))
         st_b64_round = Some st'
       ∧ xread (VecXpr (Col 3 0)) st'
         = Some [V6 (V3 0 0 0) (V3 0 0 1)]%float)
  ∧ ¬ round_trip (motionSet.se3Action m_b64)
        (motionSet.se3ActionInverse m_b64).
Proof.
  split; [reflexivity|]. split; [reflexivity|]. split.
  - eexists. split; reflexivity.
  - intros Hround.
    destruct (Hround (VecXpr (Col 0 0)) (VecXpr (Col 2 0)) (VecXpr (Col 3 0))
                st_b64_round
                [V6 (V3 0 0x1p-54 0) (V3 0 0 1)]%float
                [V6 (V3 7 7 7) (V3 7 7 7)]%float
                [V6 (V3 7 7 7) (V3 7 7 7)]%float)
      as (st' & Hrun & Hread);
      [discriminate | discriminate | reflexivity.. |].
    injection Hrun as <-.
    apply (f_equal (λ o : option (list (Vector6 float)),
                      match o with
                      | Some (X :: _) => PrimFloat.eqb (cy (v_head X)) 0
                      | _ => false
                      end)) in Hread.
    vm_compute in Hread. discriminate.
Qed.

(** Arguments by const reference. *)

Lemma with_SE3_keeps {K : Type} `{Scalar K}
    (E : SE3 K → Xpr → Xpr → Cmd K) : keeps_transform E.
Proof.
  intros r iF jF T st T' st'. unfold with_SE3; simpl.
  destruct (T !! r) as [m|]; simpl; [|done].
  destruct (E m iF jF st) as [st1|] eqn:HE; simpl; [|done].
  intros [= <- <-]. split; [done|]. by exists m.
Qed.

Lemma motion_at_set_col {K : Type} (cv o : ColXpr) (y : Vector6 K) st :
  cv ≠ o → motion_at cv (set_col o y st) = motion_at cv st.
Proof.
  intros Hne. unfold motion_at. rewrite get_col_set_col_ne; [done|].
  congruence.
Qed.

Section ByReferenceFacts.
Context {K : Type} `{Scalar K}.
Variable k : Motion K → ColXpr → ColXpr → Cmd K.
Variable run : Motion K → Xpr → Xpr → Cmd K.
Variable E : Motion K → Xpr → Xpr → Cmd K.
Variables g g' : Motion K → Vector6 K → Vector6 K.
Hypothesis k_effect :
  ∀ v i o st, k v i o st = column_effect (g v) (g' v) i o st.
Hypothesis run_loop :
  ∀ v iF jF st,
    run v iF jF st = (n ← cols jF st; internal.colwise (k v) iF jF 0 n st).
Hypothesis E_dispatch :
  ∀ v iF jF, E v iF jF = internal.dispatch k run v iF jF.

(** While the loop writes in the output only, a motion that is no part of
    the output is read the same at every column. *)
Lemma colwise_by_reference cv v iF jF n : ∀ c st,
  motion_at cv st = Some v → ¬ in_xpr cv jF →
  internal.colwise (by_reference k cv) iF jF c n st
  = internal.colwise (k v) iF jF c n st.
Proof.
  induction n as [|n IH]; intros c st Hv Hcv; simpl; [done|].
  destruct (col jF c) as [o|] eqn:Ho; simpl; [|done].
  destruct (col iF c) as [i|]; simpl; [|done].
  assert (by_reference k cv i o st = k v i o st) as ->
    by (unfold by_reference; by rewrite Hv).
  destruct (k v i o st) as [st1|] eqn:Hk; simpl; [|done].
  apply IH; [|done].
  rewrite k_effect in Hk. apply column_effect_Some in Hk as [y ->].
  rewrite motion_at_set_col; [done|].
  intros ->. apply Hcv. by eapply col_in_xpr.
Qed.

Lemma entry_keeps_motion :
  keeps_motion E
    (internal.dispatch (by_reference k) (run_by_reference k)).
Proof.
  intros cv iF jF st v Hv Hcv.
  assert (Heq : internal.dispatch (by_reference k) (run_by_reference k)
                  cv iF jF st = E v iF jF st).
  { rewrite E_dispatch. destruct iF as [i|bi]; simpl.
    - destruct jF as [o|bo]; [|done]. unfold by_reference. by rewrite Hv.
    - unfold run_by_reference. rewrite run_loop.
      destruct (cols jF st) as [n|]; simpl; [|done].
      by apply colwise_by_reference. }
  split; [done|]. intros st' Hrun. rewrite Heq in Hrun.
  apply (entry_writes_output_only k run E g g' k_effect run_loop E_dispatch)
    in Hrun as [_ Hget].
  unfold motion_at. by rewrite (Hget cv Hcv).
Qed.
End ByReferenceFacts.

Lemma colwise_entry_columnwise {K : Type} `{Scalar K} {A : Type}
    (E : A → Xpr → Xpr → Cmd K) k g g' a :
  colwise_entry E k g g' → columnwise (E a) (k a) (g a) (g' a).
Proof.
  intros (H1 & run & H2 & H3). split_and!.
  - apply H1.
  - apply (entry_VecXpr k run E H3).
  - intros bi bo st Mi Mo HMi HMo Hlen.
    by apply (entry_MatXpr k run E g g' H1 H2 H3 a bi bo st Mi Mo).
  - intros bi jF st. rewrite H3. simpl. apply H2.
Qed.

(** C9, as amended: no call changes a transform; a motion that is an object
    of its own, or a view of storage that is no part of the output, is read
    the same throughout the call and is the same after it; every entry
    point writes in its output storage only and resizes nothing, and when
    the output storage is distinct from the input storage the call succeeds
    and the whole input set is as it was; in every call column [c] of the
    output becomes a function of column [c] of the input alone (and of the
    transform or motion), which is what the kernel run on that column
    leaves. *)
Theorem C9_frame (K : Type) (SK : Scalar K) (m : SE3 K) (v : Motion K) :
  respects_frame (motionSet.se3Action m)
    (internal.MotionSetSe3Action_1_run m)
  ∧ respects_frame (motionSet.se3ActionInverse m)
      (internal.MotionSetSe3ActionInverse_1_run m)
  ∧ respects_frame (motionSet.motionAction v)
      (internal.MotionSetMotionAction_1_run v)
  ∧ respects_frame (forceSet.se3Action m)
      (internal.ForceSetSe3Action_1_run m)
  ∧ respects_frame (forceSet.se3ActionInverse m)
      (internal.ForceSetSe3ActionInverse_1_run m)
  ∧ respects_frame (forceSet.motionAction v)
      (internal.ForceSetMotionAction_1_run v)
  ∧ columnwise (motionSet.se3Action m)
      (internal.MotionSetSe3Action_1_run m)
      (motion_se3Action m) (motion_se3Action m)
  ∧ columnwise (motionSet.se3ActionInverse m)
      (internal.MotionSetSe3ActionInverse_1_run m)
      (motion_se3ActionInverse m) (motion_se3ActionInverse_inplace m)
  ∧ columnwise (motionSet.motionAction v)
      (internal.MotionSetMotionAction_1_run v)
      (Motion_motionAction v) (Motion_motionAction v)
  ∧ columnwise (forceSet.se3Action m)
      (internal.ForceSetSe3Action_1_run m)
      (force_se3Action m) (force_se3Action m)
  ∧ columnwise (forceSet.se3ActionInverse m)
      (internal.ForceSetSe3ActionInverse_1_run m)
      (force_se3ActionInverse m) (force_se3ActionInverse_inplace m)
  ∧ columnwise (forceSet.motionAction v)
      (internal.ForceSetMotionAction_1_run v)
      (Force_motionAction v) (Force_motionAction v)
  ∧ keeps_transform (motionSet.se3Action (K:=K))
  ∧ keeps_transform (motionSet.se3ActionInverse (K:=K))
  ∧ keeps_transform (forceSet.se3Action (K:=K))
  ∧ keeps_transform (forceSet.se3ActionInverse (K:=K))
  ∧ keeps_motion (motionSet.motionAction (K:=K)) motionSet_motionAction_on
  ∧ keeps_motion (forceSet.motionAction (K:=K)) forceSet_motionAction_on.
Proof.
  split_and!.
  - apply (colwise_entry_frame _ _ _ _ motionSet_se3Action_entry).
  - apply (colwise_entry_frame _ _ _ _ motionSet_se3ActionInverse_entry).
  - apply (colwise_entry_frame _ _ _ _ motionSet_motionAction_entry).
  - apply (colwise_entry_frame _ _ _ _ forceSet_se3Action_entry).
  - apply (colwise_entry_frame _ _ _ _ forceSet_se3ActionInverse_entry).
  - apply (colwise_entry_frame _ _ _ _ forceSet_motionAction_entry).
  - apply (colwise_entry_columnwise _ _ _ _ m motionSet_se3Action_entry).
  - apply (colwise_entry_columnwise _ _ _ _ m
             motionSet_se3ActionInverse_entry).
  - apply (colwise_entry_columnwise _ _ _ _ v motionSet_motionAction_entry).
  - apply (colwise_entry_columnwise _ _ _ _ m forceSet_se3Action_entry).
  - apply (colwise_entry_columnwise _ _ _ _ m
             forceSet_se3ActionInverse_entry).
  - apply (colwise_entry_columnwise _ _ _ _ v forceSet_motionAction_entry).
  - apply with_SE3_keeps.
  - apply with_SE3_keeps.
  - apply with_SE3_keeps.
  - apply with_SE3_keeps.
  - apply (entry_keeps_motion internal.MotionSetMotionAction_1_run
             internal.MotionSetMotionAction_run motionSet.motionAction
             Motion_motionAction Motion_motionAction);
      [apply MotionSetMotionAction_1_run_effect | done | done].
  - apply (entry_keeps_motion internal.ForceSetMotionAction_1_run
             internal.ForceSetMotionAction_run forceSet.motionAction
             Force_motionAction Force_motionAction);
      [apply ForceSetMotionAction_1_run_effect | done | done].
Qed.

Lemma C9_witness :
  separate (MatXpr 0) (MatXpr 1)
  ∧ (∃ st',
       forceSet.se3Action m_z (MatXpr 0) (MatXpr 1) st_2 = Some st'
       ∧ xread (MatXpr 0) st' = xread (MatXpr 0) st_2)
  ∧ motion_at (Col 0 0) st_2 = Some v_z
  ∧ ¬ in_xpr (Col 0 0) (MatXpr 1)
  ∧ motionSet_motionAction_on (Col 0 0) (MatXpr 0) (MatXpr 1) st_2
    = motionSet.motionAction v_z (MatXpr 0) (MatXpr 1) st_2
  ∧ forceSet.se3ActionInverse m_z (MatXpr 0) (MatXpr 1) st_2
    = Some (<[1 := force_se3ActionInverse m_z <$> M_in]> st_2).
Proof.
  assert (Hsep : separate (MatXpr 0) (MatXpr 1)) by discriminate.
  assert (Hcv : ¬ in_xpr (Col 0 0) (MatXpr 1)) by discriminate.
  pose proof (C9_frame Z Z_Scalar m_z v_z)
    as (_ & _ & _ & (_ & _ & Hkeep & _) & _ & _ & _ & _ & _ & _
        & (_ & _ & Hcol & _) & _ & _ & _ & _ & _ & Hmot & _).
  split; [exact Hsep|]. split.
  - eexists. split; [reflexivity|].
    exact (Hkeep (MatXpr 0) (MatXpr 1) st_2 _ Hsep eq_refl).
  - split; [reflexivity|]. split; [exact Hcv|]. split.
    + exact (proj1 (Hmot (Col 0 0) (MatXpr 0) (MatXpr 1) st_2 v_z
                      eq_refl Hcv)).
    + exact (Hcol 0 1 st_2 M_in M_out eq_refl eq_refl eq_refl).
Defined.

(** The condition on the motion of C9 is needed: a motion that is a view of
    a column of the output is overwritten with that column. *)
Example motionAction_on_output_column :
  ∃ st',
    motionSet_motionAction_on (Col 1 0) (MatXpr 0) (MatXpr 1) st_2 = Some st'
    ∧ motion_at (Col 1 0) st_2 = Some (mkMotion (zv 7 7 7) (zv 7 7 7))
    ∧ motion_at (Col 1 0) st' = Some (mkMotion (zv 14 (-28) 14) (zv 7 (-14) 7)).
Proof. eexists. split_and!; reflexivity. Qed.

(** The claim C9 as it is worded fails for a call in place: the input set
    is the output storage, and it is overwritten. *)
Lemma C9_counterexample :
  ∃ st',
    forceSet.se3Action m_z (MatXpr 0) (MatXpr 0) st_2 = Some st'
    ∧ xread (MatXpr 0) st_2 = Some M_in
    ∧ xread (MatXpr 0) st'
      = Some [V6 (zv (-2) 1 3) (zv (-2) (-5) 11);
              V6 (zv (-1) 0 0) (zv 0 (-3) 3)]
    ∧ xread (MatXpr 0) st' ≠ xread (MatXpr 0) st_2
    ∧ ¬ keeps_input (forceSet.se3Action m_z).
Proof.
  eexists. split; [reflexivity|]. split; [reflexivity|].
  split; [reflexivity|]. split; [discriminate|].
  intros Hkeep.
  specialize (Hkeep (MatXpr 0) (MatXpr 0) st_2 _ eq_refl). discriminate.
Qed.

(** C1, as amended: in exact arithmetic (the scalars a commutative ring),
    for every transform whose rotation is orthonormal, the pairing
    [<f,v> = f_lin . v_lin + f_ang . v_ang] of a force with a motion is kept
    by the two forward actions together, and by the two inverse actions
    together. *)
Theorem C1_pairing_invariant (K : Type) (SK : Scalar K) (m : SE3 K) :
  ScalarRing K → orthonormal (rotation m) →
  invariant_pairing pairing (forceSet.se3Action m) (motionSet.se3Action m)
  ∧ invariant_pairing pairing (forceSet.se3ActionInverse m)
      (motionSet.se3ActionInverse m).
Proof.
  intros Kring HR. split.
  - intros st fi fo vi vo f v Hf Hv Hfi Hvi Hfo Hvo.
    rewrite forceSet_se3Action_VecXpr, motionSet_se3Action_VecXpr.
    rewrite (column_effect_separate _ _ fi fo st f) by done.
    rewrite (column_effect_separate _ _ vi vo st v) by done.
    destruct Hfo as [y Hy], Hvo as [z Hz].
    exists (set_col fo (force_se3Action m f) st),
      (set_col vo (motion_se3Action m v) st),
      (force_se3Action m f), (motion_se3Action m v).
    split_and!; [done | done | | |].
    + by rewrite get_col_set_col_eq, Hy.
    + by rewrite get_col_set_col_eq, Hz.
    + by apply pairing_se3Action.
  - intros st fi fo vi vo f v Hf Hv Hfi Hvi Hfo Hvo.
    rewrite forceSet_se3ActionInverse_VecXpr,
      motionSet_se3ActionInverse_VecXpr.
    rewrite (column_effect_separate _ _ fi fo st f) by done.
    rewrite (column_effect_separate _ _ vi vo st v) by done.
    destruct Hfo as [y Hy], Hvo as [z Hz].
    exists (set_col fo (force_se3ActionInverse m f) st),
      (set_col vo (motion_se3ActionInverse m v) st),
      (force_se3ActionInverse m f), (motion_se3ActionInverse m v).
    split_and!; [done | done | | |].
    + by rewrite get_col_set_col_eq, Hy.
    + by rewrite get_col_set_col_eq, Hz.
    + by apply pairing_se3ActionInverse.
Qed.

Lemma C1_witness :
  orthonormal (rotation m_z)
  ∧ pairing (V6 (zv 1 2 3) (zv 4 5 6)) (V6 (zv 0 1 0) (zv 0 0 1)) = 8%Z
  ∧ ∃ st1 st2 f' v',
      forceSet.se3Action m_z (VecXpr (Col 0 0)) (VecXpr (Col 1 0)) st_2
      = Some st1
      ∧ motionSet.se3Action m_z (VecXpr (Col 0 1)) (VecXpr (Col 1 1)) st_2
        = Some st2
      ∧ get_col (Col 1 0) st1 = Some f' ∧ get_col (Col 1 1) st2 = Some v'
      ∧ pairing f' v'
        = pairing (V6 (zv 1 2 3) (zv 4 5 6)) (V6 (zv 0 1 0) (zv 0 0 1)).
Proof.
  assert (HR : orthonormal (rotation m_z)) by reflexivity.
  assert (Hf : Col 0 0 ≠ Col 1 0) by discriminate.
  assert (Hv : Col 0 1 ≠ Col 1 1) by discriminate.
  assert (Hfo : is_Some (get_col (Col 1 0) st_2)) by (eexists; reflexivity).
  assert (Hvo : is_Some (get_col (Col 1 1) st_2)) by (eexists; reflexivity).
  split; [exact HR|]. split; [reflexivity|].
  exact (proj1 (C1_pairing_invariant Z Z_Scalar m_z Z_ScalarRing HR)
           st_2 (Col 0 0) (Col 1 0) (Col 0 1) (Col 1 1) _ _
           Hf Hv eq_refl eq_refl Hfo Hvo).
Defined.

(** The claim C1 as it is worded, with the pairing
    [<f,v> = f_lin . v_ang + f_ang . v_lin], fails: for the identity
    rotation and the translation [(1,0,0)], the unit force along y and the
    unit angular velocity about y pair to 1 before the two forward actions
    and to 2 after them. *)
Lemma C1_counterexample :
  orthonormal (rotation m_x)
  ∧ get_col (Col 1 0) st_x = Some (V6 (zv 0 1 0) (zv 0 0 0))
  ∧ get_col (Col 3 0) st_x = Some (V6 (zv 0 0 0) (zv 0 1 0))
  ∧ spec_pairing (V6 (zv 0 1 0) (zv 0 0 0)) (V6 (zv 0 0 0) (zv 0 1 0)) = 1%Z
  ∧ (∃ st1 st2 f' v',
       forceSet.se3Action m_x (VecXpr (Col 1 0)) (VecXpr (Col 2 0)) st_x
       = Some st1
       ∧ motionSet.se3Action m_x (VecXpr (Col 3 0)) (VecXpr (Col 2 0)) st_x
         = Some st2
       ∧ get_col (Col 2 0) st1 = Some f' ∧ get_col (Col 2 0) st2 = Some v'
       ∧ spec_pairing f' v' = 2%Z)
  ∧ ¬ invariant_pairing spec_pairing
        (forceSet.se3Action m_x) (motionSet.se3Action m_x).
Proof.
  split_and!; try reflexivity.
  - eexists _, _, _, _. split_and!; reflexivity.
  - intros Hinv.
    destruct (Hinv st_x (Col 1 0) (Col 2 0) (Col 3 0) (Col 2 0)
                (V6 (zv 0 1 0) (zv 0 0 0)) (V6 (zv 0 0 0) (zv 0 1 0)))
      as (st1 & st2 & f' & v' & H1 & H2 & H3 & H4 & H5);
      [discriminate | discriminate | reflexivity | reflexivity
      | by eexists | by eexists |].
    injection H1 as <-. injection H2 as <-.
    injection H3 as <-. injection H4 as <-. discriminate.
Qed.

(** Exact arithmetic is needed in C1: in binary64, with the identity
    rotation and the translation [(1,0,0)], the unit force along y and the
    motion of buffer 0 pair to [2^-54] before the two forward actions and
    to 0 after them. *)
Example pairing_binary64_rounds :
  orthonormal (rotation m_b64)
  ∧ (pairing (V6 (V3 0 1 0) (V3 0 0 0)) (V6 (V3 0 0x1p-54 0) (V3 0 0 1))
     = 0x1p-54)%float
  ∧ ∃ st1 st2 f' v',
      forceSet.se3Action m_b64 (VecXpr (Col 1 0)) (VecXpr (Col 2 0))
        st_b64_round = Some st1
      ∧ motionSet.se3Action m_b64 (VecXpr (Col 0 0)) (VecXpr (Col 3 0))
          st_b64_round = Some st2
      ∧ get_col (Col 2 0) st1 = Some f' ∧ get_col (Col 3 0) st2 = Some v'
      ∧ pairing f' v' = 0%float.
Proof.
  split; [reflexivity|]. split; [reflexivity|].
  eexists _, _, _, _. split_and!; reflexivity.
Qed.

(** ** Further facts about the colwise loop *)

Section ColwiseBounds.
Context {K : Type} `{Scalar K}.
Variable f : ColXpr → ColXpr → Cmd K.
Variables g g' : Vector6 K → Vector6 K.
Hypothesis f_effect : ∀ i o st, f i o st = column_effect g g' i o st.

(** The loop on distinct matrices, the output having no more columns than
    the input: the columns of the input from [c + n] on are not read. *)
Lemma colwise_prefix bi bo n : ∀ c st Mi Mo,
  bi ≠ bo → st !! bi = Some Mi → st !! bo = Some Mo →
  length Mo ≤ length Mi → c + n = length Mo →
  internal.colwise f (MatXpr bi) (MatXpr bo) c n st
  = Some (<[bo := take c Mo ++ (g <$> take n (drop c Mi))]> st).
Proof.
  induction n as [|n IH]; intros c st Mi Mo Hb HMi HMo Hlen Hc; simpl.
  - unfold skip. f_equal. symmetry. apply insert_id.
    rewrite HMo. f_equal. rewrite take_ge by lia. by rewrite app_nil_r.
  - destruct (lookup_lt_is_Some_2 Mi c) as [X HX]; [lia|].
    rewrite (f_on_columns f g g' f_effect bi bo c st Mi Mo X)
      by (done || lia).
    rewrite decide_False by done. simpl.
    set (st1 := <[bo := <[c := g X]> Mo]> st).
    rewrite (IH (S c) st1 Mi (<[c := g X]> Mo)); try done.
    + f_equal. unfold st1. rewrite insert_insert_eq. f_equal.
      rewrite (drop_S Mi X c HX). simpl.
      rewrite (take_S_r (<[c := g X]> Mo) c (g X))
        by (apply list_lookup_insert_eq; lia).
      rewrite take_insert_ge by lia. by rewrite <- app_assoc.
    + unfold st1. by rewrite lookup_insert_ne.
    + apply lookup_insert_eq.
    + by rewrite length_insert.
    + rewrite length_insert. lia.
Qed.

(** The loop comes to a column that the input matrix does not have. *)
Lemma colwise_short_input bi jF L n : ∀ c st,
  length <$> st !! bi = Some L → c ≤ L → L < c + n →
  internal.colwise f (MatXpr bi) jF c n st = None.
Proof.
  induction n as [|n IH]; intros c st HL Hc Hn; simpl; [lia|].
  destruct (col jF c) as [o|]; simpl; [|done].
  destruct (f (Col bi c) o st) as [st1|] eqn:Hf; simpl; [|done].
  rewrite f_effect in Hf.
  destruct (decide (c = L)) as [->|Hne].
  - unfold column_effect, get_col in Hf. simpl in Hf.
    destruct (st !! bi) as [Mi|]; simpl in *; [|done].
    injection HL as <-.
    by rewrite (proj2 (lookup_ge_None Mi (length Mi)) (Nat.le_refl _)) in Hf.
  - apply column_effect_Some in Hf as [y ->].
    apply IH; [|lia..]. by rewrite lookup_set_col_length.
Qed.
End ColwiseBounds.

Section EntryBounds.
Context {K : Type} `{Scalar K} {A : Type}.
Variable E : A → Xpr → Xpr → Cmd K.
Variable run_1 : A → ColXpr → ColXpr → Cmd K.
Variables g g' : A → Vector6 K → Vector6 K.
Hypothesis HE : colwise_entry E run_1 g g'.

Lemma colwise_entry_in_place a : maps_in_place (E a) (g' a).
Proof.
  destruct HE as (H1 & run & H2 & H3). split.
  - intros c st X HX.
    rewrite (entry_VecXpr run_1 run E H3), H1.
    by apply column_effect_inplace.
  - intros b st M HM.
    rewrite (entry_MatXpr run_1 run E g g' H1 H2 H3 a b b st M M) by done.
    by rewrite decide_True.
Qed.

Lemma colwise_entry_prefix a : follows_output_columns (E a) (g a).
Proof.
  destruct HE as (H1 & run & H2 & H3).
  intros bi bo st Mi Mo Hb HMi HMo Hlen.
  assert (Hrun : E a (MatXpr bi) (MatXpr bo) st
                 = Some (<[bo := g a <$> take (length Mo) Mi]> st)).
  { rewrite H3. simpl. rewrite H2. simpl. rewrite HMo. simpl.
    rewrite (colwise_prefix (run_1 a) (g a) (g' a) (H1 a) bi bo (length Mo)
               0 st Mi Mo) by done.
    by rewrite drop_0. }
  split; [done|]. intros ->. rewrite Hrun. simpl. f_equal.
  by apply insert_id.
Qed.

Lemma colwise_entry_short_input a : fails_on_short_input (E a).
Proof.
  destruct HE as (H1 & run & H2 & H3).
  intros bi jF st Mi n HMi Hn Hlt.
  rewrite H3. simpl. rewrite H2, Hn. simpl.
  apply (colwise_short_input (run_1 a) (g a) (g' a) (H1 a) bi jF (length Mi));
    [by rewrite HMi | lia | lia].
Qed.
End EntryBounds.

(** ** Calls on distinct storage, compared and composed *)

Lemma xwrite_xwrite {K : Type} (e : Xpr) (Y : list (Vector6 K)) st :
  xwrite e Y (xwrite e Y st) = xwrite e Y st.
Proof.
  destruct e as [o|b]; simpl.
  - destruct Y; [done|]. apply set_col_set_col.
  - apply insert_insert_eq.
Qed.

Lemma colwise_entry_idempotent {K : Type} `{Scalar K} {A : Type}
    (E : A → Xpr → Xpr → Cmd K) k g g' a :
  colwise_entry E k g g' → idempotent_on_separate (E a).
Proof.
  intros HE iF jF st X Y Hsep HX HY Hlen.
  pose proof (colwise_entry_separate E k g g' HE a) as Hrun.
  eexists. split; [by apply (Hrun iF jF st X Y)|].
  unfold seq. rewrite (Hrun iF jF st X Y) by done. simpl.
  rewrite (Hrun iF jF _ X (g a <$> X)); try done.
  - by rewrite xwrite_xwrite.
  - by rewrite xread_xwrite_separate.
  - apply (xread_xwrite jF Y); [done|]. by rewrite length_fmap.
  - by rewrite length_fmap.
Qed.

Lemma colwise_entry_same_call {K : Type} `{Scalar K} {A1 A2 : Type}
    (E1 : A1 → Xpr → Xpr → Cmd K) k1 g1 g1'
    (E2 : A2 → Xpr → Xpr → Cmd K) k2 g2 g2' a1 a2 :
  colwise_entry E1 k1 g1 g1' → colwise_entry E2 k2 g2 g2' →
  (∀ x, g1 a1 x = g2 a2 x) →
  same_call (E1 a1) (E2 a2).
Proof.
  intros HE1 HE2 Hg iF jF st X Y Hsep HX HY Hlen.
  rewrite (colwise_entry_separate E1 k1 g1 g1' HE1 a1 iF jF st X Y) by done.
  rewrite (colwise_entry_separate E2 k2 g2 g2' HE2 a2 iF jF st X Y) by done.
  eexists. split; [done|]. do 2 f_equal.
  apply list_fmap_ext. intros _ x _. symmetry. apply Hg.
Qed.

Lemma colwise_entry_copies {K : Type} `{Scalar K} {A : Type}
    (E : A → Xpr → Xpr → Cmd K) k g g' a :
  colwise_entry E k g g' → (∀ x, g a x = x) → copies (E a).
Proof.
  intros HE Hg iF jF st X Y Hsep HX HY Hlen.
  rewrite (colwise_entry_separate E k g g' HE a iF jF st X Y) by done.
  do 2 f_equal. rewrite <- (list_fmap_id X) at 2.
  apply list_fmap_ext. intros _ x _. apply Hg.
Qed.

Lemma colwise_entry_composes {K : Type} `{Scalar K} {A : Type}
    (E : A → Xpr → Xpr → Cmd K) k g g' a1 a2 a12 :
  colwise_entry E k g g' →
  (∀ x, g a1 (g a2 x) = g a12 x) →
  composes (E a1) (E a2) (E a12).
Proof.
  intros HE Hg a b c st X Y Z Hab Hbc Hac HX HY HZ HlY HlZ.
  pose proof (colwise_entry_separate E k g g' HE) as Hrun.
  unfold seq. rewrite (Hrun a2 a b st X Y) by done. simpl.
  rewrite (Hrun a1 b c _ (g a2 <$> X) Z); try done.
  - rewrite (Hrun a12 a c st X Z) by done.
    eexists _, _. split; [done|]. split; [done|].
    rewrite (xread_xwrite c Z).
    + rewrite (xread_xwrite c Z); [|done|by rewrite length_fmap].
      f_equal. rewrite <- list_fmap_compose.
      apply list_fmap_ext. intros _ x _. apply Hg.
    + rewrite xread_xwrite_separate; [done|]. by apply separate_sym.
    + by rewrite !length_fmap.
  - apply (xread_xwrite b Y); [done|]. by rewrite length_fmap.
  - rewrite xread_xwrite_separate; [done|]. by apply separate_sym.
  - by rewrite length_fmap.
Qed.

(** ** Rotations, the identity and the duality, over a commutative ring *)

Section RotationAlgebra.
Context {K : Type} `{Scalar K}.
Context (Kring : ScalarRing K).
Local Open Scope scalar_scope.

Add Ring Kr' : (Kring : ring_theory 0 1 kadd kmul ksub kopp eq).

Ltac coefficients :=
  repeat match goal with
    | x : Vector3 _ |- _ => destruct x
    | M : Matrix3 _ |- _ => destruct M
    | X : Vector6 _ |- _ => destruct X
    | m : SE3 _ |- _ => destruct m
    end;
  unfold pairing, motion_se3Action, motion_se3ActionInverse,
    force_se3Action, force_se3ActionInverse, mulMM, mulMV, transpose, scale,
    det, adj, Identity3, Zero3, vadd, vsub, vopp, cross, dot; simpl;
  repeat first [apply M3_eq | apply V3_eq]; ring.

Lemma vadd_assoc (a b c : Vector3 K) : vadd a (vadd b c) = vadd (vadd a b) c.
Proof. coefficients. Qed.

Lemma vsub_as_vadd (a b : Vector3 K) : vsub a b = vadd (vopp b) a.
Proof. coefficients. Qed.

Lemma mulMV_vadd (M : Matrix3 K) a b :
  mulMV M (vadd a b) = vadd (mulMV M a) (mulMV M b).
Proof. coefficients. Qed.

Lemma mulMV_vsub (M : Matrix3 K) a b :
  mulMV M (vsub a b) = vsub (mulMV M a) (mulMV M b).
Proof. coefficients. Qed.

Lemma cross_vadd_l (a b c : Vector3 K) :
  cross (vadd a b) c = vadd (cross a c) (cross b c).
Proof. coefficients. Qed.

Lemma cross_vopp_l (a b : Vector3 K) : cross (vopp a) b = vopp (cross a b).
Proof. coefficients. Qed.

Lemma cross_Zero3_l (a : Vector3 K) : cross Zero3 a = Zero3.
Proof. coefficients. Qed.

Lemma vadd_Zero3_l (a : Vector3 K) : vadd Zero3 a = a.
Proof. coefficients. Qed.

Lemma vsub_Zero3_r (a : Vector3 K) : vsub a Zero3 = a.
Proof. coefficients. Qed.

Lemma det_transpose (M : Matrix3 K) : det (transpose M) = det M.
Proof. coefficients. Qed.

(** The cross product of two images is the image of the cross product by
    the matrix of cofactors. *)
Lemma cross_mulMV (M : Matrix3 K) a b :
  cross (mulMV M a) (mulMV M b) = mulMV (transpose (adj M)) (cross a b).
Proof. coefficients. Qed.

(** The adjugate of a rotation is its transpose. *)
Lemma adj_rotation (R : Matrix3 K) :
  orthonormal R → det R = 1 → adj R = transpose R.
Proof.
  intros HR Hdet.
  rewrite <- (mulMM_Identity3_r Kring (adj R)).
  rewrite <- (orthonormal_transpose Kring R HR), <- (mulMM_assoc Kring).
  rewrite (adj_mulMM Kring), Hdet, (scale_mulMM Kring), (scale_1 Kring).
  apply (mulMM_Identity3_l Kring).
Qed.

(** A rotation goes through the cross product. *)
Lemma cross_rotation (R : Matrix3 K) a b :
  orthonormal R → det R = 1 →
  cross (mulMV R a) (mulMV R b) = mulMV R (cross a b).
Proof.
  intros HR Hdet.
  by rewrite cross_mulMV, (adj_rotation R HR Hdet), transpose_transpose.
Qed.

Lemma orthonormal_of_transpose (R : Matrix3 K) :
  orthonormal R → orthonormal (transpose R).
Proof.
  intros HR. unfold orthonormal.
  rewrite transpose_transpose. by apply (orthonormal_transpose Kring).
Qed.

(** The identity transform. *)

Lemma motion_se3Action_identity (m : SE3 K) X :
  rotation m = Identity3 → translation m = Zero3 → motion_se3Action m X = X.
Proof.
  destruct m as [R p], X as [l a]; simpl. intros -> ->.
  unfold motion_se3Action; simpl.
  by rewrite !(mulMV_Identity3 Kring), cross_Zero3_l, vadd_Zero3_l.
Qed.

Lemma force_se3Action_identity (m : SE3 K) X :
  rotation m = Identity3 → translation m = Zero3 → force_se3Action m X = X.
Proof.
  destruct m as [R p], X as [l a]; simpl. intros -> ->.
  unfold force_se3Action; simpl.
  by rewrite !(mulMV_Identity3 Kring), cross_Zero3_l, vadd_Zero3_l.
Qed.

Lemma motion_se3ActionInverse_identity (m : SE3 K) X :
  rotation m = Identity3 → translation m = Zero3 →
  motion_se3ActionInverse m X = X.
Proof.
  destruct m as [R p], X as [l a]; simpl. intros -> ->.
  unfold motion_se3ActionInverse; simpl.
  assert (Ht : transpose (Identity3 : Matrix3 K) = Identity3) by done.
  by rewrite Ht, !(mulMV_Identity3 Kring), cross_Zero3_l, vsub_Zero3_r.
Qed.

Lemma force_se3ActionInverse_identity (m : SE3 K) X :
  rotation m = Identity3 → translation m = Zero3 →
  force_se3ActionInverse m X = X.
Proof.
  destruct m as [R p], X as [l a]; simpl. intros -> ->.
  unfold force_se3ActionInverse; simpl.
  assert (Ht : transpose (Identity3 : Matrix3 K) = Identity3) by done.
  by rewrite Ht, !(mulMV_Identity3 Kring), cross_Zero3_l, vsub_Zero3_r.
Qed.

Lemma motion_se3ActionInverse_inplace_identity (m : SE3 K) X :
  rotation m = Identity3 → translation m = Zero3 →
  motion_se3ActionInverse_inplace m X = V6 (v_head X) (v_head X).
Proof.
  destruct m as [R p], X as [l a]; simpl. intros -> ->.
  unfold motion_se3ActionInverse_inplace; simpl.
  assert (Ht : transpose (Identity3 : Matrix3 K) = Identity3) by done.
  by rewrite Ht, !(mulMV_Identity3 Kring), cross_Zero3_l, vsub_Zero3_r.
Qed.

Lemma force_se3ActionInverse_inplace_identity (m : SE3 K) X :
  rotation m = Identity3 → translation m = Zero3 →
  force_se3ActionInverse_inplace m X = V6 (v_tail X) (v_tail X).
Proof.
  destruct m as [R p], X as [l a]; simpl. intros -> ->.
  unfold force_se3ActionInverse_inplace; simpl.
  assert (Ht : transpose (Identity3 : Matrix3 K) = Identity3) by done.
  by rewrite Ht, !(mulMV_Identity3 Kring), cross_Zero3_l, vsub_Zero3_r.
Qed.

(** Two actions in a row. *)

Lemma motion_se3Action_compose (m1 m2 : SE3 K) X :
  orthonormal (rotation m1) → det (rotation m1) = 1 →
  motion_se3Action m1 (motion_se3Action m2 X)
  = motion_se3Action
      (mkSE3 (mulMM (rotation m1) (rotation m2))
             (vadd (translation m1) (mulMV (rotation m1) (translation m2))))
      X.
Proof.
  intros HR Hdet. destruct m1 as [R1 p1], m2 as [R2 p2], X as [l a].
  unfold motion_se3Action; simpl in *.
  rewrite <- !(mulMV_mulMM Kring), cross_vadd_l, (cross_rotation R1) by done.
  by rewrite mulMV_vadd, vadd_assoc.
Qed.

Lemma force_se3Action_compose (m1 m2 : SE3 K) X :
  orthonormal (rotation m1) → det (rotation m1) = 1 →
  force_se3Action m1 (force_se3Action m2 X)
  = force_se3Action
      (mkSE3 (mulMM (rotation m1) (rotation m2))
             (vadd (translation m1) (mulMV (rotation m1) (translation m2))))
      X.
Proof.
  intros HR Hdet. destruct m1 as [R1 p1], m2 as [R2 p2], X as [l a].
  unfold force_se3Action; simpl in *.
  rewrite <- !(mulMV_mulMM Kring), cross_vadd_l, (cross_rotation R1) by done.
  by rewrite mulMV_vadd, vadd_assoc.
Qed.

(** The inverse action is the action of the inverse transform. *)

Lemma motion_se3ActionInverse_as_action (m : SE3 K) X :
  orthonormal (rotation m) → det (rotation m) = 1 →
  motion_se3ActionInverse m X
  = motion_se3Action
      (mkSE3 (transpose (rotation m))
             (vopp (mulMV (transpose (rotation m)) (translation m)))) X.
Proof.
  intros HR Hdet. destruct m as [R p], X as [l a].
  unfold motion_se3ActionInverse, motion_se3Action; simpl in *.
  rewrite cross_vopp_l, (cross_rotation (transpose R))
    by (by apply orthonormal_of_transpose || by rewrite det_transpose).
  by rewrite mulMV_vsub, vsub_as_vadd.
Qed.

Lemma force_se3ActionInverse_as_action (m : SE3 K) X :
  orthonormal (rotation m) → det (rotation m) = 1 →
  force_se3ActionInverse m X
  = force_se3Action
      (mkSE3 (transpose (rotation m))
             (vopp (mulMV (transpose (rotation m)) (translation m)))) X.
Proof.
  intros HR Hdet. destruct m as [R p], X as [l a].
  unfold force_se3ActionInverse, force_se3Action; simpl in *.
  rewrite cross_vopp_l, (cross_rotation (transpose R))
    by (by apply orthonormal_of_transpose || by rewrite det_transpose).
  by rewrite mulMV_vsub, vsub_as_vadd.
Qed.

(** The action on forces is the transpose of the inverse action on motions,
    whatever the matrix [R] is. *)

Lemma pairing_force_se3Action (m : SE3 K) f v :
  pairing (force_se3Action m f) v = pairing f (motion_se3ActionInverse m v).
Proof. coefficients. Qed.

Lemma pairing_force_se3ActionInverse (m : SE3 K) f v :
  pairing (force_se3ActionInverse m f) v = pairing f (motion_se3Action m v).
Proof. coefficients. Qed.
End RotationAlgebra.

(** ** Further properties of the six operations *)

Lemma set_col_id {K : Type} (c : ColXpr) (X : Vector6 K) (st : Store K) :
  get_col c st = Some X → set_col c X st = st.
Proof.
  unfold get_col, set_col. intros HX. apply map_eq; intros b.
  destruct (decide (buf c = b)) as [<-|Hb].
  - rewrite lookup_alter_eq. destruct (st !! buf c) as [M|]; simpl in *;
      [|done].
    by rewrite list_insert_id.
  - by rewrite lookup_alter_ne.
Qed.

(** X1: the two forward actions compute the same columns in place as on
    distinct storage: called with the input itself for output, on a vector
    or on a set, [se3Action] leaves [(p x R v_ang + R v_lin, R v_ang)] in
    the place of every motion and [(R f_lin, p x R f_lin + R f_ang)] in the
    place of every force, which is what it leaves in a distinct output. *)
Theorem X1_se3Action_in_place (K : Type) (SK : Scalar K) (m : SE3 K) :
  maps_in_place (motionSet.se3Action m) (motion_se3Action m)
  ∧ maps_columns (motionSet.se3Action m) (motion_se3Action m)
  ∧ maps_in_place (forceSet.se3Action m) (force_se3Action m)
  ∧ maps_columns (forceSet.se3Action m) (force_se3Action m).
Proof.
  split_and!.
  - apply (colwise_entry_in_place _ _ _ _ motionSet_se3Action_entry).
  - intros iF jF st X Y.
    apply (colwise_entry_separate _ _ _ _ motionSet_se3Action_entry).
  - apply (colwise_entry_in_place _ _ _ _ forceSet_se3Action_entry).
  - intros iF jF st X Y.
    apply (colwise_entry_separate _ _ _ _ forceSet_se3Action_entry).
Qed.

Lemma X1_witness :
  st_2 !! 0 = Some M_in
  ∧ forceSet.se3Action m_z (MatXpr 0) (MatXpr 0) st_2
    = Some (<[0 := [V6 (zv (-2) 1 3) (zv (-2) (-5) 11);
                    V6 (zv (-1) 0 0) (zv 0 (-3) 3)]]> st_2).
Proof.
  split; [reflexivity|].
  exact (proj2 (proj1 (proj2 (proj2 (X1_se3Action_in_place Z Z_Scalar m_z))))
           0 st_2 M_in eq_refl).
Defined.

(** X2: called with the input set itself for output, [se3ActionInverse]
    leaves in every column twice the same vector:
    [R^T (v_lin - p x v_ang)] for motions, [R^T (f_ang - p x f_lin)] for
    forces. *)
Theorem X2_se3ActionInverse_in_place (K : Type) (SK : Scalar K) (m : SE3 K) :
  let R := rotation m in
  let p := translation m in
  maps_in_place (motionSet.se3ActionInverse m)
    (λ X, let t := mulMV (transpose R) (vsub (v_head X) (cross p (v_tail X)))
          in V6 t t)
  ∧ maps_in_place (forceSet.se3ActionInverse m)
      (λ X, let s := mulMV (transpose R)
                       (vsub (v_tail X) (cross p (v_head X)))
            in V6 s s).
Proof.
  split.
  - apply (colwise_entry_in_place _ _ _ _ motionSet_se3ActionInverse_entry).
  - apply (colwise_entry_in_place _ _ _ _ forceSet_se3ActionInverse_entry).
Qed.

Lemma X2_witness :
  st_2 !! 0 = Some M_in
  ∧ motionSet.se3ActionInverse m_z (MatXpr 0) (MatXpr 0) st_2
    = Some (<[0 := [V6 (zv (-4) (-4) 6) (zv (-4) (-4) 6);
                    V6 (zv 2 2 0) (zv 2 2 0)]]> st_2).
Proof.
  split; [reflexivity|].
  exact (proj2 (proj1 (X2_se3ActionInverse_in_place Z Z_Scalar m_z))
           0 st_2 M_in eq_refl).
Defined.

(** X3: the colwise loop of [se3Action] and [se3ActionInverse] runs over
    the columns of the output, [col < jF.cols()]: with an output of fewer
    columns than the input, on distinct storage, the call succeeds, the
    output holds the images of the first [jF.cols()] columns of the input
    and the other columns of the input are not read; with an output without
    columns the call changes nothing. *)
Theorem X3_output_columns (K : Type) (SK : Scalar K) (m : SE3 K) :
  follows_output_columns (motionSet.se3Action m) (motion_se3Action m)
  ∧ follows_output_columns (motionSet.se3ActionInverse m)
      (motion_se3ActionInverse m)
  ∧ follows_output_columns (forceSet.se3Action m) (force_se3Action m)
  ∧ follows_output_columns (forceSet.se3ActionInverse m)
      (force_se3ActionInverse m).
Proof.
  split_and!.
  - apply (colwise_entry_prefix _ _ _ _ motionSet_se3Action_entry).
  - apply (colwise_entry_prefix _ _ _ _ motionSet_se3ActionInverse_entry).
  - apply (colwise_entry_prefix _ _ _ _ forceSet_se3Action_entry).
  - apply (colwise_entry_prefix _ _ _ _ forceSet_se3ActionInverse_entry).
Qed.

Lemma X3_witness :
  0 ≠ 1 ∧ st_short !! 0 = Some M_in
  ∧ st_short !! 1 = Some [V6 (zv 7 7 7) (zv 7 7 7)]
  ∧ 1 ≤ length M_in
  ∧ forceSet.se3Action m_z (MatXpr 0) (MatXpr 1) st_short
    = Some (<[1 := [V6 (zv (-2) 1 3) (zv (-2) (-5) 11)]]> st_short).
Proof.
  assert (Hne : 0 ≠ 1) by discriminate.
  assert (Hle : 1 ≤ length M_in) by (simpl; lia).
  split; [exact Hne|]. split; [reflexivity|]. split; [reflexivity|].
  split; [exact Hle|].
  exact (proj1 (proj1 (proj2 (proj2 (X3_output_columns Z Z_Scalar m_z)))
                  0 1 st_short M_in [V6 (zv 7 7 7) (zv 7 7 7)]
                  Hne eq_refl eq_refl Hle)).
Defined.

(** X4: with an input matrix of fewer columns than the output,
    [se3Action] and [se3ActionInverse] have no result: the loop, bounded by
    [jF.cols()], comes to [iF.col(col)] for a column that the input does not
    have. *)
Theorem X4_short_input (K : Type) (SK : Scalar K) (m : SE3 K) :
  fails_on_short_input (motionSet.se3Action m)
  ∧ fails_on_short_input (motionSet.se3ActionInverse m)
  ∧ fails_on_short_input (forceSet.se3Action m)
  ∧ fails_on_short_input (forceSet.se3ActionInverse m).
Proof.
  split_and!.
  - apply (colwise_entry_short_input _ _ _ _ motionSet_se3Action_entry).
  - apply (colwise_entry_short_input _ _ _ _ motionSet_se3ActionInverse_entry).
  - apply (colwise_entry_short_input _ _ _ _ forceSet_se3Action_entry).
  - apply (colwise_entry_short_input _ _ _ _ forceSet_se3ActionInverse_entry).
Qed.

Lemma X4_witness :
  st_short !! 1 = Some [V6 (zv 7 7 7) (zv 7 7 7)]
  ∧ cols (MatXpr 0) st_short = Some 2
  ∧ motionSet.se3Action m_z (MatXpr 1) (MatXpr 0) st_short = None.
Proof.
  split; [reflexivity|]. split; [reflexivity|].
  exact (proj1 (X4_short_input Z Z_Scalar m_z)
           1 (MatXpr 0) st_short [V6 (zv 7 7 7) (zv 7 7 7)] 2
           eq_refl eq_refl (le_n 2)).
Defined.

(** X5: over a ring of scalars, with the identity rotation and the zero
    translation, [se3Action] and [se3ActionInverse], on motions and on
    forces, on vectors and on sets, copy the input into a distinct
    output. *)
Theorem X5_identity_copies (K : Type) (SK : Scalar K) (m : SE3 K) :
  ScalarRing K → rotation m = Identity3 → translation m = Zero3 →
  copies (motionSet.se3Action m)
  ∧ copies (motionSet.se3ActionInverse m)
  ∧ copies (forceSet.se3Action m)
  ∧ copies (forceSet.se3ActionInverse m).
Proof.
  intros Kring HR Hp. split_and!.
  - apply (colwise_entry_copies _ _ _ _ m motionSet_se3Action_entry).
    intros x. by apply motion_se3Action_identity.
  - apply (colwise_entry_copies _ _ _ _ m motionSet_se3ActionInverse_entry).
    intros x. by apply motion_se3ActionInverse_identity.
  - apply (colwise_entry_copies _ _ _ _ m forceSet_se3Action_entry).
    intros x. by apply force_se3Action_identity.
  - apply (colwise_entry_copies _ _ _ _ m forceSet_se3ActionInverse_entry).
    intros x. by apply force_se3ActionInverse_identity.
Qed.

Lemma X5_witness :
  separate (MatXpr 0) (MatXpr 1)
  ∧ motionSet.se3ActionInverse m_id (MatXpr 0) (MatXpr 1) st_2
    = Some (<[1 := M_in]> st_2).
Proof.
  assert (Hsep : separate (MatXpr 0) (MatXpr 1)) by discriminate.
  split; [exact Hsep|].
  exact (proj1 (proj2 (X5_identity_copies Z Z_Scalar m_id Z_ScalarRing
                         eq_refl eq_refl))
           (MatXpr 0) (MatXpr 1) st_2 M_in M_out Hsep eq_refl eq_refl
           eq_refl).
Defined.

(** X6: over a ring of scalars, with the identity rotation and the zero
    translation, and the input column itself for output: the two forward
    actions leave the store as it is, but [se3ActionInverse] does not: it
    leaves the linear part twice in a motion, and the angular part twice in
    a force. *)
Theorem X6_identity_in_place (K : Type) (SK : Scalar K) (m : SE3 K)
    (c : ColXpr) (st : Store K) (X : Vector6 K) :
  ScalarRing K → rotation m = Identity3 → translation m = Zero3 →
  get_col c st = Some X →
  motionSet.se3Action m (VecXpr c) (VecXpr c) st = Some st
  ∧ forceSet.se3Action m (VecXpr c) (VecXpr c) st = Some st
  ∧ motionSet.se3ActionInverse m (VecXpr c) (VecXpr c) st
    = Some (set_col c (V6 (v_head X) (v_head X)) st)
  ∧ forceSet.se3ActionInverse m (VecXpr c) (VecXpr c) st
    = Some (set_col c (V6 (v_tail X) (v_tail X)) st).
Proof.
  intros Kring HR Hp HX.
  rewrite motionSet_se3Action_VecXpr, forceSet_se3Action_VecXpr,
    motionSet_se3ActionInverse_VecXpr, forceSet_se3ActionInverse_VecXpr.
  rewrite !(column_effect_inplace _ _ c st X HX).
  rewrite (motion_se3Action_identity Kring m X HR Hp).
  rewrite (force_se3Action_identity Kring m X HR Hp).
  rewrite (motion_se3ActionInverse_inplace_identity Kring m X HR Hp).
  rewrite (force_se3ActionInverse_inplace_identity Kring m X HR Hp).
  by rewrite (set_col_id c X st HX).
Qed.

Lemma X6_witness :
  get_col (Col 0 0) st_2 = Some (V6 (zv 1 2 3) (zv 4 5 6))
  ∧ motionSet.se3Action m_id (VecXpr (Col 0 0)) (VecXpr (Col 0 0)) st_2
    = Some st_2
  ∧ motionSet.se3ActionInverse m_id (VecXpr (Col 0 0)) (VecXpr (Col 0 0)) st_2
    = Some (set_col (Col 0 0) (V6 (zv 1 2 3) (zv 1 2 3)) st_2).
Proof.
  split; [reflexivity|].
  pose proof (X6_identity_in_place Z Z_Scalar m_id (Col 0 0) st_2 _
                Z_ScalarRing eq_refl eq_refl eq_refl) as (H1 & _ & H3 & _).
  split; [exact H1 | exact H3].
Defined.

(** X7: over a ring of scalars, two forward actions in a row are one: for
    [m1 = (R1, p1)] with [R1] a rotation ([R1^T R1 = I], [det R1 = 1]) and
    any [m2 = (R2, p2)], [se3Action] of [m2] from [a] to [b] followed by
    [se3Action] of [m1] from [b] to [c] leaves in [c] what [se3Action] of
    [(R1 R2, p1 + R1 p2)] from [a] to [c] leaves there, for motions and for
    forces, on vectors and on sets. *)
Theorem X7_se3Action_composes (K : Type) (SK : Scalar K) (m1 m2 : SE3 K) :
  ScalarRing K → orthonormal (rotation m1) → det (rotation m1) = kone →
  let m12 := mkSE3 (mulMM (rotation m1) (rotation m2))
               (vadd (translation m1) (mulMV (rotation m1) (translation m2)))
  in
  composes (motionSet.se3Action m1) (motionSet.se3Action m2)
    (motionSet.se3Action m12)
  ∧ composes (forceSet.se3Action m1) (forceSet.se3Action m2)
      (forceSet.se3Action m12).
Proof.
  intros Kring HR Hdet m12. split.
  - apply (colwise_entry_composes _ _ _ _ m1 m2 m12
             motionSet_se3Action_entry).
    intros x. by apply motion_se3Action_compose.
  - apply (colwise_entry_composes _ _ _ _ m1 m2 m12
             forceSet_se3Action_entry).
    intros x. by apply force_se3Action_compose.
Qed.

Lemma X7_witness :
  orthonormal (rotation m_z) ∧ det (rotation m_z) = 1%Z
  ∧ ∃ st1 st2,
      (motionSet.se3Action m_x (MatXpr 0) (MatXpr 1) ;;
       motionSet.se3Action m_z (MatXpr 1) (MatXpr 2)) st_2 = Some st1
      ∧ motionSet.se3Action
          (mkSE3 (mulMM (rotation m_z) (rotation m_x))
             (vadd (translation m_z)
                (mulMV (rotation m_z) (translation m_x))))
          (MatXpr 0) (MatXpr 2) st_2 = Some st2
      ∧ xread (MatXpr 2) st1 = xread (MatXpr 2) st2.
Proof.
  assert (HR : orthonormal (rotation m_z)) by reflexivity.
  assert (Hdet : det (rotation m_z) = 1%Z) by reflexivity.
  assert (H01 : separate (MatXpr 0) (MatXpr 1)) by discriminate.
  assert (H12 : separate (MatXpr 1) (MatXpr 2)) by discriminate.
  assert (H02 : separate (MatXpr 0) (MatXpr 2)) by discriminate.
  split; [exact HR|]. split; [exact Hdet|].
  exact (proj1 (X7_se3Action_composes Z Z_Scalar m_z m_x Z_ScalarRing HR Hdet)
           (MatXpr 0) (MatXpr 1) (MatXpr 2) st_2 M_in M_out M_out
           H01 H12 H02 eq_refl eq_refl eq_refl eq_refl eq_refl).
Defined.

(** X8: over a ring of scalars and for [m = (R, p)] with [R] a rotation,
    [se3ActionInverse] of [m] is [se3Action] of the inverse transform
    [(R^T, - R^T p)]: on distinct storage the two calls succeed and end in
    the same store, for motions and for forces, on vectors and on sets. *)
Theorem X8_se3ActionInverse_as_se3Action (K : Type) (SK : Scalar K)
    (m : SE3 K) :
  ScalarRing K → orthonormal (rotation m) → det (rotation m) = kone →
  let m_inv := mkSE3 (transpose (rotation m))
                 (vopp (mulMV (transpose (rotation m)) (translation m))) in
  same_call (motionSet.se3ActionInverse m) (motionSet.se3Action m_inv)
  ∧ same_call (forceSet.se3ActionInverse m) (forceSet.se3Action m_inv).
Proof.
  intros Kring HR Hdet m_inv. split.
  - apply (colwise_entry_same_call _ _ _ _ _ _ _ _ m m_inv
             motionSet_se3ActionInverse_entry motionSet_se3Action_entry).
    intros x. by apply motion_se3ActionInverse_as_action.
  - apply (colwise_entry_same_call _ _ _ _ _ _ _ _ m m_inv
             forceSet_se3ActionInverse_entry forceSet_se3Action_entry).
    intros x. by apply force_se3ActionInverse_as_action.
Qed.

Lemma X8_witness :
  orthonormal (rotation m_z) ∧ det (rotation m_z) = 1%Z
  ∧ ∃ st',
      forceSet.se3ActionInverse m_z (MatXpr 0) (MatXpr 1) st_2 = Some st'
      ∧ forceSet.se3Action
          (mkSE3 (transpose (rotation m_z))
             (vopp (mulMV (transpose (rotation m_z)) (translation m_z))))
          (MatXpr 0) (MatXpr 1) st_2 = Some st'.
Proof.
  assert (HR : orthonormal (rotation m_z)) by reflexivity.
  assert (Hdet : det (rotation m_z) = 1%Z) by reflexivity.
  assert (H01 : separate (MatXpr 0) (MatXpr 1)) by discriminate.
  split; [exact HR|]. split; [exact Hdet|].
  exact (proj2 (X8_se3ActionInverse_as_se3Action Z Z_Scalar m_z Z_ScalarRing
                  HR Hdet)
           (MatXpr 0) (MatXpr 1) st_2 M_in M_out H01 eq_refl eq_refl eq_refl).
Defined.

(** X9: over a ring of scalars and for every transform, orthonormal or not,
    the action on forces is the transpose of the inverse action on motions
    for the pairing [<f,v> = f_lin . v_lin + f_ang . v_ang]:
    [<se3Action(m,f), v> = <f, se3ActionInverse(m,v)>] and
    [<se3ActionInverse(m,f), v> = <f, se3Action(m,v)>]. *)
Theorem X9_force_action_is_dual (K : Type) (SK : Scalar K) (m : SE3 K) :
  ScalarRing K →
  adjoint_pairing pairing (forceSet.se3Action m)
    (motionSet.se3ActionInverse m)
  ∧ adjoint_pairing pairing (forceSet.se3ActionInverse m)
      (motionSet.se3Action m).
Proof.
  intros Kring. split.
  - intros st fi fo vi vo f v Hf Hv Hfi Hvi Hfo Hvo.
    rewrite forceSet_se3Action_VecXpr, motionSet_se3ActionInverse_VecXpr.
    rewrite (column_effect_separate _ _ fi fo st f) by done.
    rewrite (column_effect_separate _ _ vi vo st v) by done.
    destruct Hfo as [y Hy], Hvo as [z Hz].
    exists (set_col fo (force_se3Action m f) st),
      (set_col vo (motion_se3ActionInverse m v) st),
      (force_se3Action m f), (motion_se3ActionInverse m v).
    split_and!; [done | done | | |].
    + by rewrite get_col_set_col_eq, Hy.
    + by rewrite get_col_set_col_eq, Hz.
    + by apply pairing_force_se3Action.
  - intros st fi fo vi vo f v Hf Hv Hfi Hvi Hfo Hvo.
    rewrite forceSet_se3ActionInverse_VecXpr, motionSet_se3Action_VecXpr.
    rewrite (column_effect_separate _ _ fi fo st f) by done.
    rewrite (column_effect_separate _ _ vi vo st v) by done.
    destruct Hfo as [y Hy], Hvo as [z Hz].
    exists (set_col fo (force_se3ActionInverse m f) st),
      (set_col vo (motion_se3Action m v) st),
      (force_se3ActionInverse m f), (motion_se3Action m v).
    split_and!; [done | done | | |].
    + by rewrite get_col_set_col_eq, Hy.
    + by rewrite get_col_set_col_eq, Hz.
    + by apply pairing_force_se3ActionInverse.
Qed.

Lemma X9_witness :
  ∃ st1 st2 f' v',
    forceSet.se3Action m_z (VecXpr (Col 1 0)) (VecXpr (Col 2 0)) st_x
    = Some st1
    ∧ motionSet.se3ActionInverse m_z (VecXpr (Col 3 0)) (VecXpr (Col 2 0)) st_x
      = Some st2
    ∧ get_col (Col 2 0) st1 = Some f' ∧ get_col (Col 2 0) st2 = Some v'
    ∧ pairing f' (V6 (zv 0 0 0) (zv 0 1 0))
      = pairing (V6 (zv 0 1 0) (zv 0 0 0)) v'.
Proof.
  assert (Hf : Col 1 0 ≠ Col 2 0) by discriminate.
  assert (Hv : Col 3 0 ≠ Col 2 0) by discriminate.
  assert (Hj : is_Some (get_col (Col 2 0) st_x)) by (eexists; reflexivity).
  exact (proj1 (X9_force_action_is_dual Z Z_Scalar m_z Z_ScalarRing)
           st_x (Col 1 0) (Col 2 0) (Col 3 0) (Col 2 0) _ _
           Hf Hv eq_refl eq_refl Hj Hj).
Defined.

(** X10: on distinct storage [se3Action] and [se3ActionInverse] are
    idempotent: a second call with the same arguments ends in the store of
    the first, since the call reads nothing of what the output held and
    leaves the input as it was. *)
Theorem X10_idempotent (K : Type) (SK : Scalar K) (m : SE3 K) :
  idempotent_on_separate (motionSet.se3Action m)
  ∧ idempotent_on_separate (motionSet.se3ActionInverse m)
  ∧ idempotent_on_separate (forceSet.se3Action m)
  ∧ idempotent_on_separate (forceSet.se3ActionInverse m).
Proof.
  split_and!.
  - apply (colwise_entry_idempotent _ _ _ _ m motionSet_se3Action_entry).
  - apply (colwise_entry_idempotent _ _ _ _ m
             motionSet_se3ActionInverse_entry).
  - apply (colwise_entry_idempotent _ _ _ _ m forceSet_se3Action_entry).
  - apply (colwise_entry_idempotent _ _ _ _ m
             forceSet_se3ActionInverse_entry).
Qed.

Lemma X10_witness :
  separate (MatXpr 0) (MatXpr 1)
  ∧ ∃ st',
      motionSet.se3ActionInverse m_z (MatXpr 0) (MatXpr 1) st_2 = Some st'
      ∧ (motionSet.se3ActionInverse m_z (MatXpr 0) (MatXpr 1) ;;
         motionSet.se3ActionInverse m_z (MatXpr 0) (MatXpr 1)) st_2
        = Some st'.
Proof.
  assert (H01 : separate (MatXpr 0) (MatXpr 1)) by discriminate.
  split; [exact H01|].
  exact (proj1 (proj2 (X10_idempotent Z Z_Scalar m_z))
           (MatXpr 0) (MatXpr 1) st_2 M_in M_out H01 eq_refl eq_refl eq_refl).
Defined.
